(** * go-datastructures: the blocking FIFO queue and the selectable future

    A shallow embedding of [queue/queue.go] (package [queue]) and of
    [futures/selectable.go] (package [futures]), with the properties their
    specification states about them.

    Conventions of the embedding.
    - A Go slice is either [nil] or a window on a backing array; only its
      elements and its nil-ness are observable here, so a slice is an
      [option (list A)] with [None] for [nil].  Capacities passed to [make]
      are allocation hints and are not modelled.
    - [int64] and [time.Duration] values are integers in [Z]; no operation of
      the queue does arithmetic on them that could wrap.
    - [*sema] pointers are locations of a heap of semaphores; a location
      outside the heap plays the part of a nil pointer.
    - A method call is a function from the state before the call to an
      [outcome]: the call returns, or it parks the calling goroutine.  These
      functions give the behaviour of a call while no other goroutine runs;
      a mutex is a boolean, and a call that finds it held parks.
    - Module [Race] interleaves a waiting [Poll] with a concurrent [Put],
      one statement at a time. *)

From stdpp Require Import base option list gmap.
From Stdlib Require Import ZArith Lia.

Local Open Scope Z_scope.

(** ** Slices *)

Module Slice.

Definition slice (A : Type) : Type := option (list A).

(** [len(s)] *)
Definition len {A} (s : slice A) : Z :=
  match s with
  | None => 0
  | Some l => Z.of_nat (length l)
  end.

(** the elements of [s], front first *)
Definition elems {A} (s : slice A) : list A := default [] s.

(** [append(s, xs...)]: appending nothing gives [s] back, nil or not. *)
Definition append {A} (s : slice A) (xs : list A) : slice A :=
  match xs with
  | [] => s
  | _ :: _ => Some (elems s ++ xs)
  end.

(** [s[i:]]: reslicing keeps nil-ness. *)
Definition from {A} (s : slice A) (i : Z) : slice A :=
  drop (Z.to_nat i) <$> s.

(** [s[i]] *)
Definition index {A} (s : slice A) (i : Z) : option A :=
  if i <? 0 then None else elems s !! Z.to_nat i.

End Slice.

Import Slice.

(** ** Errors *)

(** Modelled from the spec: the three error values of package [queue]
    ([ErrDisposed], [ErrTimeout], [ErrEmptyQueue]) are declared in a file of
    the package that is not part of the sources at hand; the specification
    lists exactly three distinguishable error kinds. *)
Inductive error : Type :=
| ErrDisposed
| ErrTimeout
| ErrEmptyQueue.

#[global] Instance error_eq_dec : EqDecision error.
Proof. solve_decision. Defined.

(** ** Outcomes of a call *)

(** [Returns r s]: the call returns [r] and leaves the state [s].
    [Blocks s]: the calling goroutine is parked in state [s] (on the mutex,
    on a channel or on a wait group) and resumes only if another goroutine
    acts; with no other goroutine it never returns.
    [Panics]: the call panics (a nil pointer is dereferenced, a wait group
    counter goes negative, a closed channel is closed again, an index is
    out of range, or [make] is given a capacity out of range). *)
Inductive outcome (S R : Type) : Type :=
| Returns (r : R) (s : S)
| Blocks (s : S)
| Panics.

Arguments Returns {S R} r s.
Arguments Blocks {S R} s.
Arguments Panics {S R}.

(** ** Package queue *)

Module Queue.

Definition loc : Type := nat.

(** [type sema struct { ready chan bool; response *sync.WaitGroup }].
    [ready] has capacity 1: its buffer is empty or holds one value.
    [response] is the counter of the wait group. *)
Record sema : Type := Sema {
  ready : option bool;
  response : nat
}.

(** [newSema()] *)
Definition newSema : sema := {| ready := None; response := 0 |}.

(** [s.response.Add(1)] *)
Definition response_Add1 (s : sema) : sema :=
  {| ready := ready s; response := S (response s) |}.

(** [s.response.Done()]: panics on a zero counter. *)
Definition response_Done (s : sema) : option sema :=
  match response s with
  | O => None
  | S n => Some {| ready := ready s; response := n |}
  end.

(** [select { case s.ready <- true: ...; default: ... }]: the send goes
    through when the buffer has room.  The boolean tells which branch ran. *)
Definition try_send (s : sema) : sema * bool :=
  match ready s with
  | None => ({| ready := Some true; response := response s |}, true)
  | Some _ => (s, false)
  end.

(** *** [type waiters []*sema] *)

Definition waiters_get (w : slice loc) : option loc * slice loc :=
  match w with
  | Some (sema :: rest) => (Some sema, Some rest)
  | _ => (None, w)
  end.

Definition waiters_put (w : slice loc) (sema : loc) : slice loc :=
  append w [sema].

Definition waiters_remove (w : slice loc) (sema : loc) : slice loc :=
  if len w =? 0 then w
  else Some (filter (λ p, p ≠ sema) (elems w)).

(** *** [make] *)

(** [make([]T, 0, n)] returns an empty slice of capacity [n] when [0 <= n]
    and [n] elements of type [T] fit the allocator; otherwise it panics
    ([makeslice: cap out of range]).  [max_cap T] is the largest capacity
    that fits, the allocator's limit [maxAlloc] divided by the size of a
    [T]: a constant of the platform and of the element type.  Running out
    of memory below that limit is not modelled. *)
Class Alloc (T : Type) : Type := max_cap : Z.

Arguments max_cap T {_}.

Definition make_fits (T : Type) `{!Alloc T} (n : Z) : bool :=
  (0 <=? n) && (n <=? max_cap T).

(** In the examples the items are 8-byte integers on a 64-bit platform,
    where [maxAlloc] is [2^48]. *)
#[global] Instance alloc_Z : Alloc Z := 2 ^ 45.

Section Items.

Context {T : Type} `{!Alloc T}.

(** the zero value of [T] *)
Variable zero : T.

(** *** [type items[T any] []T] *)

(** The loop of [items.get]: [rest] is the part of the items from
    position [i] on, and [index] advances with [i].  The slots the loop
    zeroes lie before [index] and are cut off by the reslice that
    follows. *)
Fixpoint get_loop (rest : list T) (i number : Z) (returnItems : list T)
    (index : Z) : list T * Z :=
  if i <? number then
    match rest with
    | [] => (returnItems, index)
    | item :: rest' =>
        get_loop rest' (i + 1) number (returnItems ++ [item]) (index + 1)
    end
  else (returnItems, index).

(** [items.get] from its loop on: what it returns and what it leaves *)
Definition get_result (items : slice T) (number : Z) : slice T * slice T :=
  let '(returnItems, index) := get_loop (elems items) 0 number [] 0 in
  (Some returnItems, from items index).

(** [func (items *items[T]) get(number int64) []T]: it starts with
    [returnItems := make([]T, 0, number)]; [None] when that panics. *)
Definition items_get (items : slice T) (number : Z)
    : option (slice T * slice T) :=
  if make_fits T number then Some (get_result items number) else None.

Definition items_peek (items : slice T) : T * bool :=
  match elems items with
  | [] => (zero, false)
  | item :: _ => (item, true)
  end.

(** The loop of [items.getUntil]: [index] is the position of the last
    item taken, [-1] at the start. *)
Fixpoint getUntil_loop (checker : T → bool) (rest : list T) (i : Z)
    (returnItems : list T) (index : Z) : list T * Z :=
  match rest with
  | [] => (returnItems, index)
  | item :: rest' =>
      if negb (checker item) then (returnItems, index)
      else getUntil_loop checker rest' (i + 1) (returnItems ++ [item]) i
  end.

(** [make([]T, 0, length)] asks for the length of a slice that exists, a
    capacity [make] accepts. *)
Definition items_getUntil (items : slice T) (checker : T → bool)
    : slice T * slice T :=
  if len items =? 0 then (Some [], items)
  else
    let '(returnItems, index) :=
      getUntil_loop checker (elems items) 0 [] (-1) in
    (Some returnItems, from items (index + 1)).

(** *** [type Queue[T any] struct] *)

(** [lock] is [true] while some call holds the mutex. *)
Record Queue : Type := mkQueue {
  waiters : slice loc;
  items : slice T;
  lock : bool;
  disposed : bool
}.

(** The queue together with the semaphores its waiters point to. *)
Record state : Type := State {
  heap : gmap loc sema;
  queue : Queue
}.

Definition set_waiters (q : Queue) (w : slice loc) : Queue :=
  {| waiters := w; items := items q; lock := lock q;
     disposed := disposed q |}.

Definition set_items (q : Queue) (its : slice T) : Queue :=
  {| waiters := waiters q; items := its; lock := lock q;
     disposed := disposed q |}.

Definition set_lock (q : Queue) (b : bool) : Queue :=
  {| waiters := waiters q; items := items q; lock := b;
     disposed := disposed q |}.

(** [&Queue[T]{items: make([]T, 0, hint)}]: the queue [New] returns, with
    an empty, non-nil buffer *)
Definition new_queue : state :=
  {| heap := ∅;
     queue := {| waiters := None; items := Some []; lock := false;
                 disposed := false |} |}.

(** [func New[T any](hint int64) *Queue[T]]; [None] when [make] panics *)
Definition New (hint : Z) : option state :=
  if make_fits T hint then Some new_queue else None.

(** The hand-off loop of [Put], entered with the mutex held.  [ws] is the
    content of [q.waiters].  A send that goes through is followed by
    [sema.response.Wait()], which parks the producer while the counter
    is not zero. *)
Fixpoint Put_loop (ws : list loc) (h : gmap loc sema) (q : Queue)
    : outcome state (option error) :=
  match ws with
  | [] => Returns None (State h (set_lock q false))
  | sema :: ws' =>
      let q1 := set_waiters q (Some ws') in
      match h !! sema with
      | None => Panics
      | Some sm =>
          let '(sm1, sent) := try_send (response_Add1 sm) in
          let h1 := <[sema := sm1]> h in
          if sent && negb (Nat.eqb (response sm1) 0)
          then Blocks (State h1 q1)
          else if len (items q1) =? 0
               then Returns None (State h1 (set_lock q1 false))
               else Put_loop ws' h1 q1
      end
  end.

(** [func (q *Queue[T]) Put(items ...T) error] *)
Definition Put (its : list T) (s : state) : outcome state (option error) :=
  if Z.of_nat (length its) =? 0 then Returns None s
  else if lock (queue s) then Blocks s
  else if disposed (queue s) then Returns (Some ErrDisposed) s
  else
    let q1 := set_items (set_lock (queue s) true)
                        (append (items (queue s)) its) in
    Put_loop (elems (waiters q1)) (heap s) q1.

(** [func (q *Queue[T]) Poll(number int64, timeout time.Duration)].
    On an empty buffer the call registers a fresh semaphore and waits for
    it or for the timer.  With no other goroutine nothing is ever sent on
    the semaphore: a positive timeout fires, the caller claims its own
    semaphore and removes it under the mutex; without a timeout the call
    stays parked. *)
Definition Poll (number timeout : Z) (s : state)
    : outcome state (slice T * option error) :=
  if number <? 1 then Returns (Some [], None) s
  else if lock (queue s) then Blocks s
  else if disposed (queue s) then Returns (None, Some ErrDisposed) s
  else if len (items (queue s)) =? 0 then
    let sema := fresh (dom (heap s)) in
    let h1 := <[sema := newSema]> (heap s) in
    let q1 := set_waiters (queue s) (waiters_put (waiters (queue s)) sema) in
    if 0 <? timeout then
      let '(sm, sent) := try_send newSema in
      if sent then
        Returns (None, Some ErrTimeout)
                (State (<[sema := sm]> h1)
                       (set_waiters q1 (waiters_remove (waiters q1) sema)))
      else
        match response_Done sm with
        | None => Panics
        | Some sm' =>
            Returns (None, Some ErrTimeout) (State (<[sema := sm']> h1) q1)
        end
    else Blocks (State h1 q1)
  else
    match items_get (items (queue s)) number with
    | None => Panics
    | Some (ret, rest) =>
        Returns (ret, None) (State (heap s) (set_items (queue s) rest))
    end.

(** [func (q *Queue[T]) Get(number int64) ([]T, error)] *)
Definition Get (number : Z) (s : state)
    : outcome state (slice T * option error) :=
  Poll number 0 s.

(** [func (q *Queue[T]) Peek() (T, error)] *)
Definition Peek (s : state) : outcome state (T * option error) :=
  if lock (queue s) then Blocks s
  else if disposed (queue s) then Returns (zero, Some ErrDisposed) s
  else
    let '(peekItem, ok) := items_peek (items (queue s)) in
    if negb ok then Returns (zero, Some ErrEmptyQueue) s
    else Returns (peekItem, None) s.

(** [func (q *Queue[T]) TakeUntil(checker func(item T) bool)]; a nil
    [checker] is [None]. *)
Definition TakeUntil (checker : option (T → bool)) (s : state)
    : outcome state (slice T * option error) :=
  match checker with
  | None => Returns (None, None) s
  | Some c =>
      if lock (queue s) then Blocks s
      else if disposed (queue s) then Returns (None, Some ErrDisposed) s
      else
        let '(result, rest) := items_getUntil (items (queue s)) c in
        Returns (result, None) (State (heap s) (set_items (queue s) rest))
  end.

(** [func (q *Queue[T]) Empty() bool] *)
Definition Empty (s : state) : outcome state bool :=
  if lock (queue s) then Blocks s
  else Returns (len (items (queue s)) =? 0) s.

(** [func (q *Queue[T]) Len() int64] *)
Definition Len (s : state) : outcome state Z :=
  if lock (queue s) then Blocks s
  else Returns (len (items (queue s))) s.

(** [func (q *Queue[T]) Disposed() bool] *)
Definition Disposed (s : state) : outcome state bool :=
  if lock (queue s) then Blocks s
  else Returns (disposed (queue s)) s.

(** The loop of [Dispose] over the registered waiters: every semaphore
    gets [response.Add(1)] and a non-blocking send. *)
Fixpoint Dispose_loop (ws : list loc) (h : gmap loc sema)
    : option (gmap loc sema) :=
  match ws with
  | [] => Some h
  | waiter :: ws' =>
      match h !! waiter with
      | None => None
      | Some sm =>
          Dispose_loop ws' (<[waiter := fst (try_send (response_Add1 sm))]> h)
      end
  end.

(** [func (q *Queue[T]) Dispose() []T] *)
Definition Dispose (s : state) : outcome state (slice T) :=
  if lock (queue s) then Blocks s
  else
    match Dispose_loop (elems (waiters (queue s))) (heap s) with
    | None => Panics
    | Some h' =>
        Returns (items (queue s))
                (State h' {| waiters := None; items := None;
                             lock := false; disposed := true |})
    end.

(** the state every [Dispose] leaves, up to the heap *)
Definition disposed_state (h : gmap loc sema) : state :=
  State h {| waiters := None; items := None; lock := false;
             disposed := true |}.

(** *** Sequential programs over a queue *)

(** The calls a client can make on a [*Queue[T]]. *)
Inductive call : Type :=
| CPut (its : list T)
| CGet (number : Z)
| CPoll (number timeout : Z)
| CPeek
| CTakeUntil (checker : option (T → bool))
| CEmpty
| CLen
| CDisposed
| CDispose.

(** forgetting what a call returned *)
Definition effect {R} (o : outcome state R) : outcome state unit :=
  match o with
  | Returns _ s => Returns tt s
  | Blocks s => Blocks s
  | Panics => Panics
  end.

Definition do_call (c : call) (s : state) : outcome state unit :=
  match c with
  | CPut its => effect (Put its s)
  | CGet number => effect (Get number s)
  | CPoll number timeout => effect (Poll number timeout s)
  | CPeek => effect (Peek s)
  | CTakeUntil checker => effect (TakeUntil checker s)
  | CEmpty => effect (Empty s)
  | CLen => effect (Len s)
  | CDisposed => effect (Disposed s)
  | CDispose => effect (Dispose s)
  end.

(** One goroutine makes the calls [cs] in order; it gets no further than
    the first call that does not return. *)
Fixpoint run (cs : list call) (s : state) : outcome state unit :=
  match cs with
  | [] => Returns tt s
  | c :: cs' =>
      match do_call c s with
      | Returns _ s' => run cs' s'
      | o => o
      end
  end.

(** Every waiter in the registry points to a semaphore: the registry only
    ever receives pointers that [newSema] returned. *)
Definition registry_ok (s : state) : Prop :=
  ∀ p, p ∈ elems (waiters (queue s)) → is_Some (heap s !! p).

End Items.

Arguments Queue T : clear implicits.
Arguments state T : clear implicits.
Arguments call T : clear implicits.

(** *** [ExecuteInParallel] *)

Section Parallel.

(** values of type [interface{}]; [int0] is the integer [0] stored in an
    interface, which the workers write over the items they have
    handled. *)
Context {I : Type}.
Variable int0 : I.

(** What the worker goroutines share: the cursor [done], the counter of
    the wait group [wg], the backing array of [q.items] (aliased by the
    local [items]) and, as the effect of [fn], the arguments it has been
    applied to, in the order the indices were claimed.  [fn] is taken to
    return and to leave the queue alone. *)
Record pool : Type := Pool {
  done : Z;
  wg : Z;
  slots : list I;
  calls : list I
}.

(** One iteration of a worker's loop.  All workers run the same loop on
    the same cursor, so the pool after an iteration does not depend on
    which worker ran it. *)
Definition worker_iteration (todo : Z) (p : pool) : option pool :=
  let index := done p + 1 in
  if index >=? todo then
    Some {| done := index; wg := wg p - 1; slots := slots p;
            calls := calls p |}
  else
    match Slice.index (Some (slots p)) index with
    | None => None
    | Some item =>
        Some {| done := index; wg := wg p;
                slots := <[Z.to_nat index := int0]> (slots p);
                calls := calls p ++ [item] |}
    end.

(** The workers run until the wait group counter is back to zero, when
    [wg.Wait()] returns.  [fuel] bounds the number of iterations. *)
Fixpoint run_workers (fuel : nat) (todo : Z) (p : pool)
    : outcome pool unit :=
  if wg p =? 0 then Returns tt p
  else
    match fuel with
    | O => Blocks p
    | S fuel' =>
        match worker_iteration todo p with
        | None => Panics
        | Some p' => run_workers fuel' todo p'
        end
    end.

(** [func ExecuteInParallel(q *Queue[interface{}], fn func(interface{}))].
    [NumCPU] is [runtime.NumCPU()]; a nil [q] is [None].  The result is
    the list of the arguments [fn] was applied to. *)
Definition ExecuteInParallel (NumCPU : Z) (q : option (state I))
    : outcome (option (state I)) (list I) :=
  match q with
  | None => Returns [] None
  | Some s =>
      if lock (queue s) then Blocks (Some s)
      else
        let s1 := State (heap s) (set_lock (queue s) true) in
        let todo := len (items (queue s1)) in
        if todo =? 0 then Returns [] (Some s1)
        else
          let numCPU := if 1 <? NumCPU then NumCPU - 1 else 1 in
          let p := {| done := -1; wg := numCPU;
                      slots := elems (items (queue s1)); calls := [] |} in
          match run_workers (Z.to_nat (todo + numCPU)) todo p with
          | Panics => Panics
          | Blocks _ => Blocks (Some s1)
          | Returns _ p' =>
              let s2 := State (heap s1)
                              (set_lock (set_items (queue s1)
                                                   (Some (slots p')))
                                        false) in
              match Dispose s2 with
              | Panics => Panics
              | Blocks s3 => Blocks (Some s3)
              | Returns _ s3 => Returns (calls p') (Some s3)
              end
          end
  end.

End Parallel.

End Queue.

(** ** A waiting [Poll] against a concurrent [Put] *)

(** Two goroutines on one queue, interleaved.  The consumer has called
    [Poll(number, timeout)] on an empty buffer: it has registered its
    semaphore [tok], released the mutex and stands at the [select] on
    [tok.ready] and the timer.  The producer calls [Put(put_items...)].
    Every step is one statement of the source: an operation on the mutex, on
    the channel or on the wait group, or one access to the fields of the
    queue.  A step that would park its goroutine is not enabled.  The timer
    may fire at any moment while the consumer stands at the [select], and
    when both cases of the [select] are ready either may be taken. *)

Module Race.

Import Queue.

Section Race.

Context {T : Type} `{!Alloc T}.

(** the semaphore of the consumer *)
Variable tok : loc.
(** the arguments of [Poll] *)
Variables number timeout : Z.
(** the arguments of [Put] *)
Variable put_items : list T.

(** Where the consumer stands in [Poll], from the outer [select] on. *)
Inductive consumer : Type :=
| PSelect                 (* at [select { case <-sema.ready; case <-timeoutC }] *)
| PReady                  (* received; at [if q.disposed] *)
| PGet                    (* at [items = q.items.get(number)] *)
| PTaken (its : slice T)  (* at [sema.response.Done()] of the first case *)
| PTimeout                (* timer case taken; at the inner [select] *)
| PClaimed                (* own send went through; at [q.lock.Lock()] *)
| PLocked                 (* at [q.waiters.remove(sema)] *)
| PRemoved                (* at [q.lock.Unlock()] *)
| PLost                   (* own send refused; at [sema.response.Done()] *)
| PReturned (its : slice T) (e : option error)
| PPanicked.

(** Where the producer stands in [Put]. *)
Inductive producer : Type :=
| QStart                  (* at [len(items) == 0], then [q.lock.Lock()] *)
| QLocked                 (* at [if q.disposed] *)
| QAppend                 (* at [q.items = append(q.items, items...)] *)
| QLoop                   (* at [sema := q.waiters.get()] *)
| QGot (sema : loc)       (* at [sema.response.Add(1)] *)
| QAdded (sema : loc)     (* at [select { case sema.ready <- true; default }] *)
| QWait (sema : loc)      (* at [sema.response.Wait()] *)
| QCheck                  (* at [if len(q.items) == 0] *)
| QUnlock                 (* at [q.lock.Unlock()] *)
| QReturned (e : option error)
| QPanicked.

Inductive party : Type := Consumer | Producer.

(** What happened at a [select] with a send on [tok.ready]: the send went
    through, or the buffer was full and [default] ran. *)
Inductive event : Type :=
| Sent (who : party)
| Refused (who : party).

(** [log] records the sends attempted on [tok.ready], latest first; it is
    not part of the program. *)
Record config : Type := Config {
  shared : state T;
  cons : consumer;
  prod : producer;
  log : list event
}.

Definition with_sema (s : state T) (p : loc) (sm : sema) : state T :=
  State (<[p := sm]> (heap s)) (queue s).

Definition with_queue (s : state T) (q : Queue T) : state T :=
  State (heap s) q.

(** The next statement of the consumer. *)
Definition consumer_step (c : config) : option config :=
  let s := shared c in
  match cons c with
  | PSelect =>
      match heap s !! tok with
      | Some (Sema (Some _) n) =>
          Some (Config (with_sema s tok (Sema None n)) PReady (prod c) (log c))
      | _ => None
      end
  | PReady =>
      if disposed (queue s)
      then Some (Config s (PReturned None (Some ErrDisposed)) (prod c) (log c))
      else Some (Config s PGet (prod c) (log c))
  | PGet =>
      match items_get (items (queue s)) number with
      | Some (its, rest) =>
          Some (Config (with_queue s (set_items (queue s) rest))
                       (PTaken its) (prod c) (log c))
      | None => Some (Config s PPanicked (prod c) (log c))
      end
  | PTaken its =>
      match heap s !! tok ≫= response_Done with
      | Some sm =>
          Some (Config (with_sema s tok sm) (PReturned its None) (prod c)
                       (log c))
      | None => Some (Config s PPanicked (prod c) (log c))
      end
  | PTimeout =>
      match heap s !! tok with
      | Some sm =>
          let '(sm', sent) := try_send sm in
          if sent
          then Some (Config (with_sema s tok sm') PClaimed (prod c)
                            (Sent Consumer :: log c))
          else Some (Config s PLost (prod c) (Refused Consumer :: log c))
      | None => Some (Config s PPanicked (prod c) (log c))
      end
  | PClaimed =>
      if lock (queue s) then None
      else Some (Config (with_queue s (set_lock (queue s) true))
                        PLocked (prod c) (log c))
  | PLocked =>
      Some (Config (with_queue s (set_waiters (queue s)
                                    (waiters_remove (waiters (queue s)) tok)))
                   PRemoved (prod c) (log c))
  | PRemoved =>
      Some (Config (with_queue s (set_lock (queue s) false))
                   (PReturned None (Some ErrTimeout)) (prod c) (log c))
  | PLost =>
      match heap s !! tok ≫= response_Done with
      | Some sm =>
          Some (Config (with_sema s tok sm)
                       (PReturned None (Some ErrTimeout)) (prod c) (log c))
      | None => Some (Config s PPanicked (prod c) (log c))
      end
  | PReturned _ _ => None
  | PPanicked => None
  end.

(** The timer fires and the consumer takes that case of the [select].
    Without a positive timeout the timer channel is nil and never
    ready. *)
Definition timer_step (c : config) : option config :=
  match cons c with
  | PSelect =>
      if 0 <? timeout
      then Some (Config (shared c) PTimeout (prod c) (log c))
      else None
  | _ => None
  end.

(** The event a producer's [select] on the semaphore [p] leaves. *)
Definition producer_event (p : loc) (sent : bool) (l : list event)
    : list event :=
  if decide (p = tok)
  then (if sent then Sent Producer else Refused Producer) :: l
  else l.

(** The next statement of the producer. *)
Definition producer_step (c : config) : option config :=
  let s := shared c in
  match prod c with
  | QStart =>
      if Z.of_nat (length put_items) =? 0
      then Some (Config s (cons c) (QReturned None) (log c))
      else if lock (queue s) then None
      else Some (Config (with_queue s (set_lock (queue s) true))
                        (cons c) QLocked (log c))
  | QLocked =>
      if disposed (queue s)
      then Some (Config (with_queue s (set_lock (queue s) false))
                        (cons c) (QReturned (Some ErrDisposed)) (log c))
      else Some (Config s (cons c) QAppend (log c))
  | QAppend =>
      Some (Config (with_queue s (set_items (queue s)
                                    (append (items (queue s)) put_items)))
                   (cons c) QLoop (log c))
  | QLoop =>
      match waiters_get (waiters (queue s)) with
      | (Some p, w) =>
          Some (Config (with_queue s (set_waiters (queue s) w))
                       (cons c) (QGot p) (log c))
      | (None, _) => Some (Config s (cons c) QUnlock (log c))
      end
  | QGot p =>
      match heap s !! p with
      | Some sm =>
          Some (Config (with_sema s p (response_Add1 sm))
                       (cons c) (QAdded p) (log c))
      | None => Some (Config s (cons c) QPanicked (log c))
      end
  | QAdded p =>
      match heap s !! p with
      | Some sm =>
          let '(sm', sent) := try_send sm in
          Some (Config (with_sema s p sm') (cons c)
                       (if sent then QWait p else QCheck)
                       (producer_event p sent (log c)))
      | None => Some (Config s (cons c) QPanicked (log c))
      end
  | QWait p =>
      match heap s !! p with
      | Some sm =>
          if Nat.eqb (response sm) 0
          then Some (Config s (cons c) QCheck (log c))
          else None
      | None => Some (Config s (cons c) QPanicked (log c))
      end
  | QCheck =>
      if len (items (queue s)) =? 0
      then Some (Config s (cons c) QUnlock (log c))
      else Some (Config s (cons c) QLoop (log c))
  | QUnlock =>
      Some (Config (with_queue s (set_lock (queue s) false))
                   (cons c) (QReturned None) (log c))
  | QReturned _ => None
  | QPanicked => None
  end.

(** What the scheduler may pick. *)
Inductive action : Type :=
| Timer
| ConsumerStep
| ProducerStep.

Definition step (a : action) (c : config) : option config :=
  match a with
  | Timer => timer_step c
  | ConsumerStep => consumer_step c
  | ProducerStep => producer_step c
  end.

(** The configuration a schedule leads to; a schedule that picks an
    action that is not enabled leads nowhere. *)
Fixpoint exec (sched : list action) (c : config) : option config :=
  match sched with
  | [] => Some c
  | a :: sched' =>
      match step a c with
      | Some c' => exec sched' c'
      | None => None
      end
  end.

(** The queue as the consumer leaves it when it parks: what [Poll] does
    to an empty, idle queue up to its outer [select]. *)
Definition registered (s : state T) : state T :=
  State (<[tok := newSema]> (heap s))
        (set_waiters (queue s) (waiters_put (waiters (queue s)) tok)).

Definition start (s : state T) : config :=
  Config (registered s) PSelect QStart [].

(** Both goroutines have returned. *)
Definition finished (c : config) : bool :=
  match cons c, prod c with
  | PReturned _ _, QReturned _ => true
  | _, _ => false
  end.

(** *** A bound on the length of the runs *)

Definition consumer_rank (p : consumer) : nat :=
  match p with
  | PSelect => 5
  | PTimeout => 4
  | PClaimed | PReady => 3
  | PLocked | PGet => 2
  | PRemoved | PLost | PTaken _ => 1
  | PReturned _ _ | PPanicked => 0
  end.

Definition producer_rank (q : producer) (pending : nat) : nat :=
  match q with
  | QStart => 5 * pending + 5
  | QLocked => 5 * pending + 4
  | QAppend => 5 * pending + 3
  | QLoop => 5 * pending + 2
  | QGot _ => 5 * pending + 6
  | QAdded _ => 5 * pending + 5
  | QWait _ => 5 * pending + 4
  | QCheck => 5 * pending + 3
  | QUnlock => 1
  | QReturned _ | QPanicked => 0
  end.

(** a bound on the number of steps left *)
Definition rank (c : config) : nat :=
  consumer_rank (cons c)
  + producer_rank (prod c) (length (elems (waiters (queue (shared c))))).

(** *** The configurations a run goes through *)

Section Shapes.

(** the buffer the consumer found, of length 0 *)
Variable its0 : slice T.

(** the buffer once the producer has appended its items, what
    [items.get(number)] takes from it and what it leaves when its [make]
    returns *)
Definition put_buffer : slice T := append its0 put_items.
Definition taken : slice T := fst (get_result put_buffer number).
Definition left : slice T := snd (get_result put_buffer number).

(** the consumer stands at one of its two [select]s, nothing sent *)
Inductive waiting : consumer → Prop :=
| waiting_select : waiting PSelect
| waiting_timer : waiting PTimeout.

(** the consumer has received and not yet taken its items *)
Inductive received : consumer → Prop :=
| received_ready : received PReady
| received_get : received PGet.

(** the producer has not yet looked at the registry; with the buffer and
    whether it holds the mutex *)
Inductive before_pop : producer → slice T → bool → Prop :=
| before_start : before_pop QStart its0 false
| before_locked : before_pop QLocked its0 true
| before_append : before_pop QAppend its0 true
| before_loop : before_pop QLoop put_buffer true.

(** the producer finds the registry empty *)
Inductive unserved : producer → slice T → bool → Prop :=
| unserved_before q its l : before_pop q its l → unserved q its l
| unserved_unlock : unserved QUnlock put_buffer true
| unserved_returned : unserved (QReturned None) put_buffer false.

(** the producer is through with the semaphore of the consumer; with
    whether it holds the mutex *)
Inductive through : producer → bool → Prop :=
| through_check : through QCheck true
| through_loop : through QLoop true
| through_unlock : through QUnlock true
| through_returned : through (QReturned None) false.

(** the producer has sent and the answer has come or is on its way *)
Inductive released : producer → bool → Prop :=
| released_wait : released (QWait tok) true
| released_through q l : through q l → released q l.

(** [shape p q ready response waiters items lock log]: where the two
    goroutines stand, with the semaphore of the consumer, the fields of
    the queue and the sends attempted so far. *)
Inductive shape : consumer → producer → option bool → nat → slice loc →
                  slice T → bool → list event → Prop :=
(* nothing sent yet *)
| idle_before p q its l :
    waiting p → before_pop q its l →
    shape p q None 0 (Some [tok]) its l []
| idle_got p :
    waiting p →
    shape p (QGot tok) None 0 (Some []) put_buffer true []
| idle_added p :
    waiting p →
    shape p (QAdded tok) None 1 (Some []) put_buffer true []
(* the consumer has claimed its semaphore *)
| claimed_before q its l :
    before_pop q its l →
    shape PClaimed q (Some true) 0 (Some [tok]) its l [Sent Consumer]
| claimed_got :
    shape PClaimed (QGot tok) (Some true) 0 (Some []) put_buffer true
          [Sent Consumer]
| claimed_added :
    shape PClaimed (QAdded tok) (Some true) 1 (Some []) put_buffer true
          [Sent Consumer]
| claimed_locked :
    shape PLocked QStart (Some true) 0 (Some [tok]) its0 true
          [Sent Consumer]
| claimed_removed :
    shape PRemoved QStart (Some true) 0 (Some []) its0 true
          [Sent Consumer]
| claimed_returned q its l :
    unserved q its l →
    shape (PReturned None (Some ErrTimeout)) q (Some true) 0 (Some [])
          its l [Sent Consumer]
(* the consumer has claimed its semaphore and the producer was refused *)
| refused_claimed q l :
    through q l →
    shape PClaimed q (Some true) 1 (Some []) put_buffer l
          [Refused Producer; Sent Consumer]
| refused_locked :
    shape PLocked (QReturned None) (Some true) 1 (Some []) put_buffer
          true [Refused Producer; Sent Consumer]
| refused_removed :
    shape PRemoved (QReturned None) (Some true) 1 (Some []) put_buffer
          true [Refused Producer; Sent Consumer]
| refused_returned :
    shape (PReturned None (Some ErrTimeout)) (QReturned None)
          (Some true) 1 (Some []) put_buffer false
          [Refused Producer; Sent Consumer]
(* the producer has sent *)
| sent_waiting p :
    waiting p →
    shape p (QWait tok) (Some true) 1 (Some []) put_buffer true
          [Sent Producer]
| sent_received p :
    received p →
    shape p (QWait tok) None 1 (Some []) put_buffer true [Sent Producer]
| sent_taken :
    shape (PTaken taken) (QWait tok) None 1 (Some []) left true
          [Sent Producer]
| sent_returned q l :
    released q l →
    shape (PReturned taken None) q None 0 (Some []) left l
          [Sent Producer]
(* the producer has sent and the consumer, timed out, was refused *)
| lost_waiting :
    shape PLost (QWait tok) (Some true) 1 (Some []) put_buffer true
          [Refused Consumer; Sent Producer]
| lost_returned q l :
    released q l →
    shape (PReturned None (Some ErrTimeout)) q (Some true) 0 (Some [])
          put_buffer l [Refused Consumer; Sent Producer].

Definition invariant (c : config) : Prop :=
  ∃ r n,
    heap (shared c) !! tok = Some (Sema r n)
    ∧ disposed (queue (shared c)) = false
    ∧ shape (cons c) (prod c) r n
            (waiters (queue (shared c))) (items (queue (shared c)))
            (lock (queue (shared c))) (log c).

End Shapes.

(** the number of sends on [tok.ready] that went through *)
Definition is_sent (e : event) : bool :=
  match e with
  | Sent _ => true
  | Refused _ => false
  end.

Definition sent_count (l : list event) : nat :=
  length (List.filter is_sent l).

(** [who] has attempted a send on [tok.ready] *)
Definition by_party (who : party) (e : event) : bool :=
  match who, e with
  | Consumer, (Sent Consumer | Refused Consumer) => true
  | Producer, (Sent Producer | Refused Producer) => true
  | _, _ => false
  end.

Definition attempted (who : party) (l : list event) : bool :=
  existsb (by_party who) l.

End Race.

Arguments consumer T : clear implicits.
Arguments config T : clear implicits.

End Race.

(** ** Package futures *)

Module Futures.

(** Channels of type [chan struct{}].  Nothing is ever sent on them; they
    are only closed.  [closed] is the package variable of that name, closed
    by [init]; [made id] is a channel made by [wchan]. *)
Inductive chan : Type :=
| closed
| made (id : nat).

Section Selectable.

(** [T] is the type of the value, [E] the type of non-nil errors. *)
Context {T E : Type}.

(** [type Selectable[T any] struct]; [m] is [true] while the mutex is
    held, a nil [err] or [wait] is [None]. *)
Record Selectable : Type := mkSelectable {
  m : bool;
  val : T;
  err : option E;
  wait : option chan;
  filled : Z
}.

(** The future together with the channels [wchan] has made: [false] for
    an open channel, [true] for a closed one. *)
Record state : Type := State {
  chans : gmap nat bool;
  fut : Selectable
}.

(** the zero value of [T] *)
Variable zero : T.

(** [NewSelectable()] *)
Definition NewSelectable : state :=
  {| chans := ∅;
     fut := {| m := false; val := zero; err := None; wait := None;
               filled := 0 |} |}.

(** whether a receive from [ch] goes through at once *)
Definition is_closed (cs : gmap nat bool) (ch : chan) : bool :=
  match ch with
  | closed => true
  | made id => default false (cs !! id)
  end.

(** [close(ch)] *)
Definition close (cs : gmap nat bool) (ch : chan) : option (gmap nat bool) :=
  match ch with
  | closed => None
  | made id =>
      match cs !! id with
      | Some false => Some (<[id := true]> cs)
      | _ => None
      end
  end.

(** [func (f *Selectable[T]) wchan() <-chan struct{}] *)
Definition wchan (s : state) : outcome state chan :=
  let f := fut s in
  if m f then Blocks s
  else
    match wait f with
    | None =>
        let id := fresh (dom (chans s)) in
        Returns (made id)
                {| chans := <[id := false]> (chans s);
                   fut := {| m := false; val := val f; err := err f;
                             wait := Some (made id);
                             filled := filled f |} |}
    | Some ch => Returns ch s
    end.

(** [func (f *Selectable[T]) WaitChan() <-chan struct{}] *)
Definition WaitChan (s : state) : outcome state chan :=
  if filled (fut s) =? 1 then Returns closed s else wchan s.

(** [func (f *Selectable[T]) GetResult() (T, error)]: the receive from
    the channel goes through once the channel is closed. *)
Definition GetResult (s : state) : outcome state (T * option E) :=
  if filled (fut s) =? 0 then
    match wchan s with
    | Returns ch s' =>
        if is_closed (chans s') ch
        then Returns (val (fut s'), err (fut s')) s'
        else Blocks s'
    | Blocks s' => Blocks s'
    | Panics => Panics
    end
  else Returns (val (fut s), err (fut s)) s.

(** [func (f *Selectable[T]) Fill(v T, e error) error] *)
Definition Fill (v : T) (e : option E) (s : state)
    : outcome state (option E) :=
  let f := fut s in
  if m f then Blocks s
  else if filled f =? 0 then
    let f' := {| m := false; val := v; err := e; wait := Some closed;
                 filled := 1 |} in
    match wait f with
    | None => Returns (err f') {| chans := chans s; fut := f' |}
    | Some w =>
        match close (chans s) w with
        | None => Panics
        | Some cs => Returns (err f') {| chans := cs; fut := f' |}
        end
    end
  else Returns (err f) s.

(** [func (f *Selectable[T]) SetValue(v T) error] *)
Definition SetValue (v : T) (s : state) : outcome state (option E) :=
  Fill v None s.

(** [func (f *Selectable[T]) SetError(e error)] *)
Definition SetError (e : option E) (s : state) : outcome state unit :=
  match Fill zero e s with
  | Returns _ s' => Returns tt s'
  | Blocks s' => Blocks s'
  | Panics => Panics
  end.

(** [var ErrFutureCanceled = errors.New("future canceled")] *)
Variable ErrFutureCanceled : E.

(** [func (f *Selectable[T]) Cancel()] *)
Definition Cancel (s : state) : outcome state unit :=
  SetError (Some ErrFutureCanceled) s.

(** *** Sequential programs over a future *)

Inductive call : Type :=
| CFill (v : T) (e : option E)
| CSetValue (v : T)
| CSetError (e : option E)
| CCancel
| CGetResult
| CWaitChan.

Definition effect {R} (o : outcome state R) : outcome state unit :=
  match o with
  | Returns _ s => Returns tt s
  | Blocks s => Blocks s
  | Panics => Panics
  end.

Definition do_call (c : call) (s : state) : outcome state unit :=
  match c with
  | CFill v e => effect (Fill v e s)
  | CSetValue v => effect (SetValue v s)
  | CSetError e => SetError e s
  | CCancel => Cancel s
  | CGetResult => effect (GetResult s)
  | CWaitChan => effect (WaitChan s)
  end.

Fixpoint run (cs : list call) (s : state) : outcome state unit :=
  match cs with
  | [] => Returns tt s
  | c :: cs' =>
      match do_call c s with
      | Returns _ s' => run cs' s'
      | o => o
      end
  end.

(** The states a future is in between calls: the mutex is free, and
    while the future is not fulfilled its channel is nil or a channel
    that [wchan] made and nobody closed. *)
Definition between_calls (s : state) : Prop :=
  m (fut s) = false
  ∧ (filled (fut s) = 0 →
     match wait (fut s) with
     | None => True
     | Some closed => False
     | Some (made id) => chans s !! id = Some false
     end).

End Selectable.

Arguments Selectable T E : clear implicits.
Arguments state T E : clear implicits.
Arguments call T E : clear implicits.

End Futures.

(** ** What a sequential program puts into a queue and gets out of it *)

Module QueueIO.

Import Queue.

Section Items.

Context {T : Type} `{!Alloc T}.
Variable zero : T.

(** The items a call passes: [accepted] are the items of a [Put] that
    returned nil, [delivered] the items a [Get], [Poll], [TakeUntil] or
    [Dispose] returned. *)
Record io : Type := IO {
  accepted : list T;
  delivered : list T
}.

Definition io_nothing : io := IO [] [].

Definition io_app (a b : io) : io :=
  IO (accepted a ++ accepted b) (delivered a ++ delivered b).

Definition io_of {R} (o : outcome (state T) R) (f : R → io)
    : outcome (state T) io :=
  match o with
  | Returns r s => Returns (f r) s
  | Blocks s => Blocks s
  | Panics => Panics
  end.

Definition call_io (c : call T) (s : state T) : outcome (state T) io :=
  match c with
  | CPut its =>
      io_of (Put its s)
            (λ e, match e with None => IO its [] | Some _ => io_nothing end)
  | CGet number => io_of (Get number s) (λ r, IO [] (elems (fst r)))
  | CPoll number timeout =>
      io_of (Poll number timeout s) (λ r, IO [] (elems (fst r)))
  | CPeek => io_of (Peek zero s) (λ _, io_nothing)
  | CTakeUntil checker =>
      io_of (TakeUntil checker s) (λ r, IO [] (elems (fst r)))
  | CEmpty => io_of (Empty s) (λ _, io_nothing)
  | CLen => io_of (Len s) (λ _, io_nothing)
  | CDisposed => io_of (Disposed s) (λ _, io_nothing)
  | CDispose => io_of (Dispose s) (λ r, IO [] (elems r))
  end.

(** One goroutine makes the calls [cs] in order, as [Queue.run] does, and
    keeps what the calls passed. *)
Fixpoint run_io (cs : list (call T)) (s : state T) : outcome (state T) io :=
  match cs with
  | [] => Returns io_nothing s
  | c :: cs' =>
      match call_io c s with
      | Returns a s' =>
          match run_io cs' s' with
          | Returns b s'' => Returns (io_app a b) s''
          | o => o
          end
      | o => o
      end
  end.

(** all the waiters of the registry have their channel full *)
Definition all_signalled (ws : list loc) (h : gmap loc sema) : Prop :=
  ∀ p, p ∈ ws → ∃ sm, h !! p = Some sm ∧ is_Some (ready sm).

End Items.

Arguments io T : clear implicits.

End QueueIO.

(** ** A waiting [Poll] against a concurrent [Dispose] *)

(** The consumer of module [Race], parked in [Poll] on an empty buffer,
    against a goroutine that calls [Dispose]; no [Put] is under way.  The
    consumer takes the steps of [Race.consumer_step] and [Race.timer_step];
    every step of the disposer is one statement of [Dispose]. *)

Module DisposeRace.

Import Queue.

Section DisposeRace.

Context {T : Type} `{!Alloc T}.

(** the semaphore of the consumer *)
Variable tok : loc.
(** the arguments of [Poll] *)
Variables number timeout : Z.

(** Where the disposer stands in [Dispose]. *)
Inductive disposer : Type :=
| DStart                        (* at [q.lock.Lock()] *)
| DLocked                       (* at [q.disposed = true] *)
| DRangeOver                    (* at [range q.waiters] *)
| DRange (ws : list loc)        (* at [waiter.response.Add(1)], or past the loop *)
| DAdded (w : loc) (ws : list loc)  (* at [select { case waiter.ready <- true; default }] *)
| DItems                        (* at [disposedItems := q.items] *)
| DClear (its : slice T)        (* at [q.items = nil] *)
| DWaiters (its : slice T)      (* at [q.waiters = nil] *)
| DUnlock (its : slice T)       (* at the deferred [q.lock.Unlock()] *)
| DReturned (its : slice T)
| DPanicked.

Record config : Type := Config {
  shared : state T;
  cons : Race.consumer T;
  disp : disposer
}.

(** The configuration as module [Race] sees it: a producer that has not
    started and never takes a step, and no log. *)
Definition as_race (c : config) : Race.config T :=
  Race.Config (shared c) (cons c) Race.QStart [].

Definition of_race (r : Race.config T) (d : disposer) : config :=
  Config (Race.shared r) (Race.cons r) d.

(** The next statement of the consumer, and the timer. *)
Definition consumer_step (c : config) : option config :=
  (λ r, of_race r (disp c)) <$> Race.consumer_step tok number (as_race c).

Definition timer_step (c : config) : option config :=
  (λ r, of_race r (disp c)) <$> Race.timer_step timeout (as_race c).

Definition set_disposed (q : Queue T) (b : bool) : Queue T :=
  {| waiters := waiters q; items := items q; lock := lock q; disposed := b |}.

(** The next statement of the disposer. *)
Definition disposer_step (c : config) : option config :=
  let s := shared c in
  match disp c with
  | DStart =>
      if lock (queue s) then None
      else Some (Config (Race.with_queue s (set_lock (queue s) true))
                        (cons c) DLocked)
  | DLocked =>
      Some (Config (Race.with_queue s (set_disposed (queue s) true))
                   (cons c) DRangeOver)
  | DRangeOver =>
      Some (Config s (cons c) (DRange (elems (waiters (queue s)))))
  | DRange (w :: ws) =>
      match heap s !! w with
      | Some sm =>
          Some (Config (Race.with_sema s w (response_Add1 sm))
                       (cons c) (DAdded w ws))
      | None => Some (Config s (cons c) DPanicked)
      end
  | DAdded w ws =>
      match heap s !! w with
      | Some sm =>
          Some (Config (Race.with_sema s w (fst (try_send sm)))
                       (cons c) (DRange ws))
      | None => Some (Config s (cons c) DPanicked)
      end
  | DRange [] => Some (Config s (cons c) DItems)
  | DItems => Some (Config s (cons c) (DClear (items (queue s))))
  | DClear its =>
      Some (Config (Race.with_queue s (set_items (queue s) None))
                   (cons c) (DWaiters its))
  | DWaiters its =>
      Some (Config (Race.with_queue s (set_waiters (queue s) None))
                   (cons c) (DUnlock its))
  | DUnlock its =>
      Some (Config (Race.with_queue s (set_lock (queue s) false))
                   (cons c) (DReturned its))
  | DReturned _ => None
  | DPanicked => None
  end.

Inductive action : Type :=
| Timer
| ConsumerStep
| DisposerStep.

Definition step (a : action) (c : config) : option config :=
  match a with
  | Timer => timer_step c
  | ConsumerStep => consumer_step c
  | DisposerStep => disposer_step c
  end.

Fixpoint exec (sched : list action) (c : config) : option config :=
  match sched with
  | [] => Some c
  | a :: sched' =>
      match step a c with
      | Some c' => exec sched' c'
      | None => None
      end
  end.

Definition start (s : state T) : config :=
  Config (Race.registered tok s) Race.PSelect DStart.

Definition finished (c : config) : bool :=
  match cons c, disp c with
  | Race.PReturned _ _, DReturned _ => true
  | _, _ => false
  end.

(** *** A bound on the length of the runs *)

Definition disposer_rank (d : disposer) (pending : nat) : nat :=
  match d with
  | DStart => 2 * pending + 8
  | DLocked => 2 * pending + 7
  | DRangeOver => 2 * pending + 6
  | DRange ws => 2 * length ws + 5
  | DAdded _ ws => 2 * length ws + 6
  | DItems => 4
  | DClear _ => 3
  | DWaiters _ => 2
  | DUnlock _ => 1
  | DReturned _ | DPanicked => 0
  end.

(** a bound on the number of steps left *)
Definition rank (c : config) : nat :=
  Race.consumer_rank (cons c)
  + disposer_rank (disp c) (length (elems (waiters (queue (shared c))))).

(** *** The configurations a run goes through *)

Section Shapes.

(** the buffer the consumer found, of length 0 *)
Variable its0 : slice T.

(** the disposer has not yet read the registry; with whether it holds the
    mutex and whether the queue is disposed *)
Inductive before_range : disposer → bool → bool → Prop :=
| before_start : before_range DStart false false
| before_locked : before_range DLocked true false
| before_over : before_range DRangeOver true true.

(** the disposer is past its loop; with whether it holds the mutex, the
    buffer, and the registry, which was [w0] before it was cleared *)
Inductive after_range (w0 : slice loc)
    : disposer → bool → slice T → slice loc → Prop :=
| after_loop : after_range w0 (DRange []) true its0 w0
| after_items : after_range w0 DItems true its0 w0
| after_clear : after_range w0 (DClear its0) true its0 w0
| after_waiters : after_range w0 (DWaiters its0) true None w0
| after_unlock : after_range w0 (DUnlock its0) true None None
| after_returned : after_range w0 (DReturned its0) false None None.

(** [shape p d ready response waiters items lock disposed]: where the two
    goroutines stand, with the semaphore of the consumer and the fields of
    the queue. *)
Inductive shape : Race.consumer T → disposer → option bool → nat →
                  slice loc → slice T → bool → bool → Prop :=
(* nothing sent yet *)
| idle_before p d l dz :
    Race.waiting p → before_range d l dz →
    shape p d None 0 (Some [tok]) its0 l dz
| idle_range p :
    Race.waiting p →
    shape p (DRange [tok]) None 0 (Some [tok]) its0 true true
| idle_added p :
    Race.waiting p →
    shape p (DAdded tok []) None 1 (Some [tok]) its0 true true
(* the consumer has claimed its semaphore *)
| claimed_before d l dz :
    before_range d l dz →
    shape Race.PClaimed d (Some true) 0 (Some [tok]) its0 l dz
| claimed_range :
    shape Race.PClaimed (DRange [tok]) (Some true) 0 (Some [tok]) its0
          true true
| claimed_added :
    shape Race.PClaimed (DAdded tok []) (Some true) 1 (Some [tok]) its0
          true true
| claimed_refused d l its w :
    after_range (Some [tok]) d l its w →
    shape Race.PClaimed d (Some true) 1 w its l true
| claimed_locked :
    shape Race.PLocked DStart (Some true) 0 (Some [tok]) its0 true false
| claimed_removed :
    shape Race.PRemoved DStart (Some true) 0 (Some []) its0 true false
| claimed_returned d l dz :
    before_range d l dz →
    shape (Race.PReturned None (Some ErrTimeout)) d (Some true) 0 (Some [])
          its0 l dz
| claimed_unseen d l its w :
    after_range (Some []) d l its w →
    shape (Race.PReturned None (Some ErrTimeout)) d (Some true) 0 w its l
          true
| late_locked :
    shape Race.PLocked (DReturned its0) (Some true) 1 None None true true
| late_removed :
    shape Race.PRemoved (DReturned its0) (Some true) 1 None None true true
| late_returned :
    shape (Race.PReturned None (Some ErrTimeout)) (DReturned its0)
          (Some true) 1 None None false true
(* the disposer has sent *)
| signalled_waiting p d l its w :
    Race.waiting p → after_range (Some [tok]) d l its w →
    shape p d (Some true) 1 w its l true
| signalled_ready d l its w :
    after_range (Some [tok]) d l its w →
    shape Race.PReady d None 1 w its l true
| signalled_returned d l its w :
    after_range (Some [tok]) d l its w →
    shape (Race.PReturned None (Some ErrDisposed)) d None 1 w its l true
| signalled_lost d l its w :
    after_range (Some [tok]) d l its w →
    shape Race.PLost d (Some true) 1 w its l true
| signalled_timeout d l its w :
    after_range (Some [tok]) d l its w →
    shape (Race.PReturned None (Some ErrTimeout)) d (Some true) 0 w its l
          true.

Definition invariant (c : config) : Prop :=
  ∃ r n,
    heap (shared c) !! tok = Some (Sema r n)
    ∧ shape (cons c) (disp c) r n
            (waiters (queue (shared c))) (items (queue (shared c)))
            (lock (queue (shared c))) (disposed (queue (shared c))).

End Shapes.

(** The consumer has left its outer [select] through the timer. *)
Definition timed_out (p : Race.consumer T) : bool :=
  match p with
  | Race.PTimeout | Race.PClaimed | Race.PLocked | Race.PRemoved
  | Race.PLost | Race.PReturned _ (Some ErrTimeout) => true
  | _ => false
  end.

End DisposeRace.

Arguments disposer T : clear implicits.
Arguments config T : clear implicits.

End DisposeRace.

(** ** Package set *)

(** A shallow embedding of [set/dict.go] (package [set]).  The map
    [map[T]struct{}] of the set is a finite set of keys; [==] on [T] is taken
    to be equality, as it is for every comparable type but the floats with
    their NaN.  The slice [flattened] is a slice header, an array and a
    length, and the arrays live in a store: [Flatten] hands out the slice it
    keeps, and [Dispose] writes through it. *)

Module SetPkg.

Definition loc : Type := nat.

(** [sync.RWMutex]: held by a writer, or by some readers, or free. *)
Record rwmutex : Type := RWMutex {
  writer : bool;
  readers : nat
}.

Definition unlocked : rwmutex := RWMutex false 0.

(** whether [Lock()] goes through *)
Definition can_Lock (m : rwmutex) : bool :=
  negb (writer m) && Nat.eqb (readers m) 0.

(** whether [RLock()] goes through *)
Definition can_RLock (m : rwmutex) : bool := negb (writer m).

(** a non-nil slice: its array and its length *)
Record header : Type := Header {
  array : loc;
  hlen : nat
}.

Section Sets.

Context `{Countable T}.

(** the zero value of [T] *)
Variable zero : T.

(** [type Set[T comparable] struct]; a nil [flattened] is [None]. *)
Record GoSet : Type := mkSet {
  items : gset T;
  lock : rwmutex;
  flattened : option header
}.

(** The set together with the arrays its slices point into. *)
Record state : Type := State {
  arrays : gmap loc (list T);
  self : GoSet
}.

(** the elements of a slice, as the store has them now *)
Definition read (s : state) (sl : option header) : list T :=
  match sl with
  | None => []
  | Some hd => take (hlen hd) (default [] (arrays s !! array hd))
  end.

(** [for _, item := range items { set.items[item] = struct{}{} }] *)
Fixpoint add_all (xs : list T) (m : gset T) : gset T :=
  match xs with
  | [] => m
  | item :: xs' => add_all xs' ({[item]} ∪ m)
  end.

(** [for _, item := range items { delete(set.items, item) }] *)
Fixpoint delete_all (xs : list T) (m : gset T) : gset T :=
  match xs with
  | [] => m
  | item :: xs' => delete_all xs' (m ∖ {[item]})
  end.

(** [func (set *Set[T]) Add(items ...T)] *)
Definition Add (xs : list T) (s : state) : outcome state unit :=
  if can_Lock (lock (self s)) then
    Returns tt (State (arrays s)
                      (mkSet (add_all xs (items (self s))) (lock (self s)) None))
  else Blocks s.

(** [func (set *Set[T]) Remove(items ...T)] *)
Definition Remove (xs : list T) (s : state) : outcome state unit :=
  if can_Lock (lock (self s)) then
    Returns tt (State (arrays s)
                      (mkSet (delete_all xs (items (self s))) (lock (self s))
                             None))
  else Blocks s.

(** [func (set *Set[T]) Exists(item T) bool] *)
Definition Exists (item : T) (s : state) : outcome state bool :=
  if can_RLock (lock (self s))
  then Returns (bool_decide (item ∈ items (self s))) s
  else Blocks s.

(** [func (set *Set[T]) Flatten() []T].  [order] is the order in which
    [range set.items] yields the keys of the map, each of them once; the
    language leaves it open. *)
Definition Flatten (order : list T) (s : state)
    : outcome state (option header) :=
  if can_Lock (lock (self s)) then
    match flattened (self s) with
    | Some hd => Returns (Some hd) s
    | None =>
        let a := fresh (dom (arrays s)) in
        let hd := Header a (length order) in
        Returns (Some hd)
                (State (<[a := order]> (arrays s))
                       (mkSet (items (self s)) (lock (self s)) (Some hd)))
    end
  else Blocks s.

(** [func (set *Set[T]) Len() int64] *)
Definition Len (s : state) : outcome state Z :=
  if can_RLock (lock (self s))
  then Returns (Z.of_nat (size (items (self s)))) s
  else Blocks s.

(** [func (set *Set[T]) Clear()] *)
Definition Clear (s : state) : outcome state unit :=
  if can_Lock (lock (self s)) then
    Returns tt (State (arrays s)
                      (mkSet ∅ (lock (self s)) (flattened (self s))))
  else Blocks s.

(** the loop of [All] *)
Fixpoint All_loop (xs : list T) (m : gset T) : bool :=
  match xs with
  | [] => true
  | item :: xs' => if bool_decide (item ∈ m) then All_loop xs' m else false
  end.

(** [func (set *Set[T]) All(items ...T) bool] *)
Definition All (xs : list T) (s : state) : outcome state bool :=
  if can_RLock (lock (self s))
  then Returns (All_loop xs (items (self s))) s
  else Blocks s.

(** [for i := 0; i < len(set.flattened); i++ { set.flattened[i] = zero }] on
    the array [l] *)
Fixpoint zero_loop (n i : nat) (l : list T) : list T :=
  match n with
  | O => l
  | S n' => zero_loop n' (S i) (<[i := zero]> l)
  end.

(** [func (set *Set[T]) Dispose()]; the keys are deleted in the order
    [range] yields them. *)
Definition Dispose (order : list T) (s : state) : outcome state unit :=
  if can_Lock (lock (self s)) then
    let m := delete_all order (items (self s)) in
    match flattened (self s) with
    | None => Returns tt (State (arrays s) (mkSet m (lock (self s)) None))
    | Some hd =>
        Returns tt
          (State (alter (zero_loop (hlen hd) 0) (array hd) (arrays s))
                 (mkSet m (lock (self s)) (Some (Header (array hd) 0))))
    end
  else Blocks s.

(** [func New[T comparable](items ...T) *Set[T]], in an empty store *)
Definition New (xs : list T) : state :=
  State ∅ (mkSet (add_all xs ∅) unlocked None).

(** The slice the set keeps lies within its array. *)
Definition flattened_ok (s : state) : Prop :=
  match flattened (self s) with
  | None => True
  | Some hd =>
      ∃ l, arrays s !! array hd = Some l ∧ (hlen hd ≤ length l)%nat
  end.

End Sets.

Arguments GoSet T {_ _}.
Arguments state T {_ _}.

End SetPkg.

(** * Properties of package queue *)

Module QueueSpec.

Import Queue.

Section Items.

Context {T : Type} `{!Alloc T}.
Variable zero : T.

Implicit Types (s : state T) (q : Queue T) (l buffer : list T).

(** ** The item buffer *)

Lemma set_items_same s :
  State (heap s) (set_items (queue s) (items (queue s))) = s.
Proof. by destruct s as [h []]. Qed.

Lemma drop_length_take l (k : nat) :
  drop (length (take k l)) l = drop k l.
Proof.
  rewrite length_take. destruct (Nat.le_gt_cases k (length l)).
  - by rewrite Nat.min_l.
  - rewrite Nat.min_r by lia. rewrite drop_all. symmetry.
    apply drop_ge. lia.
Qed.

Lemma get_loop_spec l (i number : Z) (acc : list T) (index : Z) :
  get_loop l i number acc index =
    (acc ++ take (Z.to_nat (number - i)) l,
     index + Z.of_nat (length (take (Z.to_nat (number - i)) l))).
Proof.
  revert i acc index.
  induction l as [|x l IH]; intros i acc index; simpl.
  - rewrite take_nil, app_nil_r. simpl. rewrite Z.add_0_r.
    by destruct (i <? number).
  - destruct (Z.ltb_spec i number) as [Hlt|Hge].
    + rewrite IH. replace (Z.to_nat (number - i))
        with (S (Z.to_nat (number - (i + 1)))) by lia.
      simpl. rewrite <- app_assoc. simpl. f_equal. lia.
    + replace (Z.to_nat (number - i)) with O by lia.
      simpl. by rewrite app_nil_r, Z.add_0_r.
Qed.

Lemma get_result_spec (its : slice T) (number : Z) :
  get_result its number =
    (Some (take (Z.to_nat number) (elems its)),
     drop (Z.to_nat number) <$> its).
Proof.
  unfold get_result. rewrite get_loop_spec. rewrite Z.sub_0_r. simpl.
  f_equal. unfold from. rewrite Z.add_0_l, Nat2Z.id.
  destruct its as [l|]; simpl; [|done].
  by rewrite drop_length_take.
Qed.

Lemma make_fits_spec (n : Z) :
  make_fits T n = true ↔ 0 ≤ n ≤ max_cap T.
Proof. unfold make_fits. rewrite andb_true_iff, !Z.leb_le. tauto. Qed.

(** [items.get] returns when its [make] does, and panics with it. *)
Lemma items_get_spec (its : slice T) (number : Z) :
  0 ≤ number ≤ max_cap T →
  items_get its number =
    Some (Some (take (Z.to_nat number) (elems its)),
          drop (Z.to_nat number) <$> its).
Proof.
  intros Hn%make_fits_spec. unfold items_get.
  by rewrite Hn, get_result_spec.
Qed.

Lemma items_get_Some (its : slice T) (number : Z) r :
  items_get its number = Some r →
  0 ≤ number ≤ max_cap T
  ∧ r = (Some (take (Z.to_nat number) (elems its)),
         drop (Z.to_nat number) <$> its).
Proof.
  unfold items_get. destruct (make_fits T number) eqn:Hn; [|done].
  intros [= <-]. split; [by apply make_fits_spec|apply get_result_spec].
Qed.

Lemma items_get_None (its : slice T) (number : Z) :
  items_get its number = None ↔ number < 0 ∨ max_cap T < number.
Proof.
  unfold items_get. destruct (make_fits T number) eqn:Hn.
  - apply make_fits_spec in Hn. split; [done|lia].
  - split; [|done]. intros _.
    destruct (Z.lt_ge_cases number 0); [by left|].
    destruct (Z.lt_ge_cases (max_cap T) number); [by right|].
    assert (make_fits T number = true) by (apply make_fits_spec; lia).
    congruence.
Qed.

(** What the loop of [getUntil] computes: it splits the items at the
    first one the checker refuses. *)
Lemma getUntil_loop_spec (c : T → bool) l (i : Z) (acc : list T) (index : Z) :
  ∃ taken rest,
    l = taken ++ rest
    ∧ Forall (λ x, c x = true) taken
    ∧ head rest ≫= (λ x, if c x then Some x else None) = None
    ∧ getUntil_loop c l i acc index =
        (acc ++ taken,
         match taken with
         | [] => index
         | _ :: _ => i + Z.of_nat (length taken) - 1
         end).
Proof.
  revert i acc index.
  induction l as [|x l IH]; intros i acc index; simpl.
  - exists [], []. repeat split; [constructor|]. by rewrite app_nil_r.
  - destruct (c x) eqn:Hc; simpl.
    + destruct (IH (i + 1) (acc ++ [x]) i)
        as (taken & rest & -> & Hall & Hhd & ->).
      exists (x :: taken), rest. repeat split; [by constructor|done|].
      rewrite <- app_assoc. simpl. f_equal.
      destruct taken; simpl length; lia.
    + exists [], (x :: l). simpl. rewrite Hc, app_nil_r.
      repeat split; constructor.
Qed.

Lemma items_getUntil_spec (its : slice T) (c : T → bool) :
  ∃ taken rest,
    elems its = taken ++ rest
    ∧ Forall (λ x, c x = true) taken
    ∧ head rest ≫= (λ x, if c x then Some x else None) = None
    ∧ items_getUntil its c = (Some taken, from its (Z.of_nat (length taken)))
    ∧ elems (from its (Z.of_nat (length taken))) = rest.
Proof.
  unfold items_getUntil.
  destruct its as [l|]; simpl.
  - destruct l as [|x l]; simpl length.
    + exists [], []. by repeat split.
    + replace (Z.of_nat (S (length l)) =? 0) with false
        by (symmetry; apply Z.eqb_neq; lia).
      destruct (getUntil_loop_spec c (x :: l) 0 [] (-1))
        as (taken & rest & Hl & Hall & Hhd & Heq).
      rewrite Heq. exists taken, rest. repeat split; [done..| |].
      * simpl. do 3 f_equal. destruct taken; simpl length; lia.
      * rewrite Nat2Z.id, Hl. by rewrite drop_app_length.
  - exists [], []. by repeat split.
Qed.

(** ** Calls that return before taking the mutex *)

(** C7: for every state of the queue, disposed or not, locked or not,
    [Poll(number, timeout)] with [number < 1], and so [Get(number)],
    returns an empty non-nil slice and a nil error and leaves the state
    as it was. *)
Theorem Poll_nonpositive_number s (number timeout : Z) :
  number < 1 →
  Poll number timeout s = Returns (Some [], None) s
  ∧ Get number s = Returns (Some [], None) s.
Proof.
  intros Hn. unfold Get, Poll.
  by replace (number <? 1) with true by (symmetry; apply Z.ltb_lt; lia).
Qed.

(** C10: for every state of the queue, a disposed one included, [Put]
    with no items returns a nil error and leaves the state as it was: the
    test on the number of items comes before the test on [disposed]. *)
Theorem Put_nothing s :
  Put [] s = Returns None s
  ∧ Put [] s ≠ Returns (Some ErrDisposed) s.
Proof. by split. Qed.

(** ** Peek *)

(** C6: called with the mutex free, [Peek] returns and leaves the whole
    state as it was.  It returns the disposed error on a disposed queue,
    the empty-queue error on an empty buffer of a queue that is not
    disposed, and the front item otherwise. *)
Theorem Peek_spec s :
  lock (queue s) = false →
  Peek zero s =
    Returns (if disposed (queue s) then (zero, Some ErrDisposed)
             else match elems (items (queue s)) with
                  | [] => (zero, Some ErrEmptyQueue)
                  | item :: _ => (item, None)
                  end) s.
Proof.
  intros Hl. unfold Peek, items_peek. rewrite Hl.
  destruct (disposed (queue s)); [done|].
  by destruct (elems (items (queue s))).
Qed.

(** ** TakeUntil *)

(** C5: on a queue that is not disposed, [TakeUntil] with a checker
    returns the longest prefix of the buffer whose items all pass the
    checker and leaves the other items, in order: the buffer was
    [taken ++ rest], every item of [taken] passes, and the first item of
    [rest], if there is one, does not.  Nothing else changes.  On an
    empty buffer the call returns an empty result and changes nothing. *)
Theorem TakeUntil_spec s (checker : T → bool) :
  disposed (queue s) = false →
  lock (queue s) = false →
  ∃ taken rest s',
    TakeUntil (Some checker) s = Returns (Some taken, None) s'
    ∧ elems (items (queue s)) = taken ++ rest
    ∧ Forall (λ x, checker x = true) taken
    ∧ (∀ x rest', rest = x :: rest' → checker x = false)
    ∧ elems (items (queue s')) = rest
    ∧ heap s' = heap s
    ∧ waiters (queue s') = waiters (queue s)
    ∧ disposed (queue s') = false
    ∧ lock (queue s') = false
    ∧ (elems (items (queue s)) = [] → taken = [] ∧ s' = s).
Proof.
  intros Hd Hl. unfold TakeUntil. rewrite Hl, Hd.
  destruct (items_getUntil_spec (items (queue s)) checker)
    as (taken & rest & Hsplit & Hall & Hhd & Heq & Hrest).
  rewrite Heq. eexists taken, rest, _. split; [reflexivity|].
  repeat split; simpl; try done.
  - intros x rest' ->. simpl in Hhd. by destruct (checker x).
  - rewrite Hsplit in H. by destruct taken.
  - rewrite Hsplit in H. destruct taken; [|done].
    clear. destruct s as [h [w [its|] l d]]; unfold set_items, from; simpl;
      by rewrite ?drop_0.
Qed.

(** ** Put and Poll *)

Lemma Put_no_waiters s (its : list T) :
  disposed (queue s) = false →
  lock (queue s) = false →
  elems (waiters (queue s)) = [] →
  Put its s =
    Returns None
      (State (heap s) (set_items (queue s) (append (items (queue s)) its))).
Proof.
  intros Hd Hl Hw. unfold Put. destruct its as [|x its].
  - simpl. by rewrite set_items_same.
  - simpl length.
    replace (Z.of_nat (S (length its)) =? 0) with false
      by (symmetry; apply Z.eqb_neq; lia).
    rewrite Hl, Hd. simpl. rewrite Hw. simpl.
    destruct s as [h [w i l d]]. simpl in *. by subst.
Qed.

Lemma elems_append (its : slice T) (xs : list T) :
  elems (append its xs) = elems its ++ xs.
Proof. destruct xs; simpl; [by rewrite app_nil_r|done]. Qed.

Lemma run_Puts s (puts : list (list T)) :
  disposed (queue s) = false →
  lock (queue s) = false →
  elems (waiters (queue s)) = [] →
  ∃ its',
    run zero (CPut <$> puts) s =
      Returns tt (State (heap s) (set_items (queue s) its'))
    ∧ elems its' = elems (items (queue s)) ++ concat puts.
Proof.
  revert s. induction puts as [|its puts IH]; intros s Hd Hl Hw.
  - exists (items (queue s)). simpl. by rewrite set_items_same, app_nil_r.
  - rewrite fmap_cons. cbn [run do_call].
    rewrite Put_no_waiters by done. cbn [effect].
    destruct (IH (State (heap s)
                    (set_items (queue s) (append (items (queue s)) its))))
      as (its' & Hrun & Hits'); [done..|].
    rewrite Hrun. exists its'. split; [done|].
    rewrite Hits'. simpl. by rewrite elems_append, app_assoc.
Qed.

Lemma Poll_buffered s (number timeout : Z) :
  disposed (queue s) = false →
  lock (queue s) = false →
  1 ≤ number ≤ max_cap T →
  elems (items (queue s)) ≠ [] →
  Poll number timeout s =
    Returns (Some (take (Z.to_nat number) (elems (items (queue s)))), None)
      (State (heap s)
         (set_items (queue s) (drop (Z.to_nat number) <$> items (queue s)))).
Proof.
  intros Hd Hl Hn Hne. unfold Poll.
  replace (number <? 1) with false by (symmetry; apply Z.ltb_ge; lia).
  rewrite Hl, Hd.
  replace (len (items (queue s)) =? 0) with false.
  - by rewrite items_get_spec by lia.
  - symmetry. apply Z.eqb_neq. destruct (items (queue s)) as [[|x l]|];
      simpl in *; try done; lia.
Qed.

(** On a buffer that holds items, [Poll] and [Get] for more items than
    [make] accepts panic: [items.get] asks [make] for the capacity
    [number] before it looks at the length of the buffer.  The panic comes
    after [q.lock.Lock()] and before [q.lock.Unlock()]. *)
Lemma Poll_oversized_panics s (number timeout : Z) :
  disposed (queue s) = false →
  lock (queue s) = false →
  elems (items (queue s)) ≠ [] →
  1 ≤ number →
  max_cap T < number →
  Poll number timeout s = Panics ∧ Get number s = Panics.
Proof.
  intros Hd Hl Hne Hn Hbig.
  assert (∀ t, Poll number t s = Panics) as HP; [|by split; apply HP].
  intros t. unfold Poll.
  replace (number <? 1) with false by (symmetry; apply Z.ltb_ge; lia).
  rewrite Hl, Hd.
  replace (len (items (queue s)) =? 0) with false.
  - by rewrite (proj2 (items_get_None _ _)) by (by right).
  - symmetry. apply Z.eqb_neq. destruct (items (queue s)) as [[|x l]|];
      simpl in *; try done; lia.
Qed.

(** C1 (amended): on a queue that is not disposed, with the mutex free
    and no waiter registered, every sequence of [Put] calls returns and
    leaves in the buffer the items it had followed by the items put, in
    the order of the calls.  When that buffer holds at least one item and
    [make] accepts [number] as a capacity, or when [number < 1], a
    following [Poll(number, timeout)] or [Get(number)] returns its first
    [number] items (all of them when it holds fewer) with a nil error and
    leaves the others, in order, with nothing else changed; [Peek] then
    returns the first of the items left, if there is one. *)
Theorem FIFO_order s (puts : list (list T)) (number timeout : Z) :
  disposed (queue s) = false →
  lock (queue s) = false →
  elems (waiters (queue s)) = [] →
  let buffer := elems (items (queue s)) ++ concat puts in
  (1 ≤ number → buffer ≠ [] ∧ number ≤ max_cap T) →
  ∃ s1 s2,
    run zero (CPut <$> puts) s = Returns tt s1
    ∧ elems (items (queue s1)) = buffer
    ∧ Poll number timeout s1 =
        Returns (Some (take (Z.to_nat number) buffer), None) s2
    ∧ Get number s1 =
        Returns (Some (take (Z.to_nat number) buffer), None) s2
    ∧ elems (items (queue s2)) = drop (Z.to_nat number) buffer
    ∧ heap s2 = heap s
    ∧ waiters (queue s2) = waiters (queue s)
    ∧ disposed (queue s2) = false
    ∧ lock (queue s2) = false
    ∧ (∀ x rest, drop (Z.to_nat number) buffer = x :: rest →
         Peek zero s2 = Returns (x, None) s2).
Proof.
  intros Hd Hl Hw buffer Hne.
  destruct (run_Puts s puts) as (its' & Hrun & Hits'); [done..|].
  fold buffer in Hits'.
  set (s1 := State (heap s) (set_items (queue s) its')) in *.
  destruct (Z.lt_ge_cases number 1) as [Hlt|Hge].
  - destruct (Poll_nonpositive_number s1 number timeout Hlt) as [HP HG].
    exists s1, s1. rewrite HP, HG.
    replace (Z.to_nat number) with O by lia. simpl. rewrite drop_0.
    repeat split; try done.
    intros x rest Hb. rewrite Peek_spec by done. simpl.
    by rewrite Hits', Hb, Hd.
  - assert (∀ t, Poll number t s1 =
      Returns (Some (take (Z.to_nat number) buffer), None)
        (State (heap s1)
           (set_items (queue s1) (drop (Z.to_nat number) <$> its'))))
      as HP.
    { intros t. rewrite Poll_buffered; try done.
      - simpl. by rewrite Hits'.
      - split; [done|]. by apply Hne.
      - simpl. rewrite Hits'. by apply Hne. }
    eexists s1, _. split; [done|]. split; [done|].
    split; [exact (HP timeout)|]. split; [exact (HP 0)|].
    assert (elems (drop (Z.to_nat number) <$> its')
            = drop (Z.to_nat number) buffer) as Hleft.
    { rewrite <- Hits'. destruct its'; simpl; [done|by rewrite drop_nil]. }
    repeat split; try done.
    intros x rest Hb. rewrite Peek_spec by done. simpl.
    by rewrite Hleft, Hb, Hd.
Qed.

(** ** Dispose *)

Lemma Dispose_loop_total (ws : list loc) (h : gmap loc sema) :
  (∀ p, p ∈ ws → is_Some (h !! p)) →
  is_Some (Dispose_loop ws h).
Proof.
  revert h. induction ws as [|w ws IH]; intros h Hok; simpl; [done|].
  destruct (Hok w) as [sm ->]; [by left|].
  apply IH. intros p Hp. rewrite lookup_insert_is_Some.
  destruct (decide (w = p)); [by left|].
  right. split; [done|]. apply Hok. by right.
Qed.

Lemma Dispose_returns s :
  lock (queue s) = false →
  registry_ok s →
  ∃ h', Dispose_loop (elems (waiters (queue s))) (heap s) = Some h'
        ∧ Dispose s = Returns (items (queue s)) (disposed_state h').
Proof.
  intros Hl Hok. unfold Dispose. rewrite Hl.
  destruct (Dispose_loop_total _ _ Hok) as [h' Hh'].
  exists h'. by rewrite Hh'.
Qed.

(** On a disposed queue with the mutex free, the calls that reach the
    test on [disposed] return the disposed error and change nothing. *)
Lemma disposed_calls s :
  disposed (queue s) = true →
  lock (queue s) = false →
  (∀ x its, Put (x :: its) s = Returns (Some ErrDisposed) s)
  ∧ (∀ number timeout, 1 ≤ number →
       Poll number timeout s = Returns (None, Some ErrDisposed) s)
  ∧ (∀ number, 1 ≤ number →
       Get number s = Returns (None, Some ErrDisposed) s)
  ∧ Peek zero s = Returns (zero, Some ErrDisposed) s
  ∧ (∀ checker, TakeUntil (Some checker) s
                = Returns (None, Some ErrDisposed) s).
Proof.
  intros Hd Hl.
  assert (∀ number timeout, 1 ≤ number →
            Poll number timeout s = Returns (None, Some ErrDisposed) s)
    as HP.
  { intros number timeout Hn. unfold Poll.
    replace (number <? 1) with false by (symmetry; apply Z.ltb_ge; lia).
    by rewrite Hl, Hd. }
  repeat split.
  - intros x its. unfold Put. simpl length.
    replace (Z.of_nat (S (length its)) =? 0) with false
      by (symmetry; apply Z.eqb_neq; lia).
    by rewrite Hl, Hd.
  - exact HP.
  - intros number. apply HP.
  - rewrite Peek_spec by done. by rewrite Hd.
  - intros checker. unfold TakeUntil. by rewrite Hl, Hd.
Qed.

(** No call on a disposed queue with the mutex free blocks, and the
    queue is still disposed, with the mutex free, when it returns. *)
Lemma disposed_call_returns s (c : call T) :
  disposed (queue s) = true →
  lock (queue s) = false →
  registry_ok s →
  ∃ s', do_call zero c s = Returns tt s'
        ∧ disposed (queue s') = true
        ∧ lock (queue s') = false
        ∧ registry_ok s'.
Proof.
  intros Hd Hl Hok.
  destruct (disposed_calls s Hd Hl) as (HPut & HPoll & HGet & HPeek & HTake).
  destruct c as [its|number|number timeout| |checker| | | |];
    cbn [do_call].
  - destruct its as [|x its]; [|rewrite HPut]; by exists s.
  - destruct (Z.lt_ge_cases number 1) as [Hlt|Hge].
    + destruct (Poll_nonpositive_number s number 0 Hlt) as [_ ->].
      by exists s.
    + rewrite HGet by done. by exists s.
  - destruct (Z.lt_ge_cases number 1) as [Hlt|Hge].
    + destruct (Poll_nonpositive_number s number timeout Hlt) as [-> _].
      by exists s.
    + rewrite HPoll by done. by exists s.
  - rewrite HPeek. by exists s.
  - destruct checker as [checker|]; [rewrite HTake|]; by exists s.
  - unfold Empty. rewrite Hl. by exists s.
  - unfold Len. rewrite Hl. by exists s.
  - unfold Disposed. rewrite Hl. by exists s.
  - destruct (Dispose_returns s Hl Hok) as (h' & _ & ->).
    exists (disposed_state h'). do 3 (split; [done|]).
    intros p Hp. inversion Hp.
Qed.

Lemma disposed_run_returns s (cs : list (call T)) :
  disposed (queue s) = true →
  lock (queue s) = false →
  registry_ok s →
  ∃ s', run zero cs s = Returns tt s'
        ∧ disposed (queue s') = true
        ∧ lock (queue s') = false
        ∧ registry_ok s'.
Proof.
  revert s. induction cs as [|c cs IH]; intros s Hd Hl Hok.
  - by exists s.
  - cbn [run].
    destruct (disposed_call_returns s c Hd Hl Hok)
      as (s' & -> & Hd' & Hl' & Hok').
    by apply IH.
Qed.

(** C2 (amended): once [disposed] is true no method of the queue sets it
    back to false: whatever calls one goroutine then makes, starting with
    the mutex free, they all return and leave the queue disposed with the
    mutex free.  In the state they leave, every [Put] of at least one
    item, every [Poll] and [Get] with [number >= 1], every [Peek] and
    every [TakeUntil] with a non-nil checker returns the disposed error
    and changes neither the buffer nor the waiter registry nor anything
    else; [Put] with no items, [Poll] and [Get] with [number < 1] and
    [TakeUntil] with a nil checker return without an error. *)
Theorem disposal_poisoning s (cs : list (call T)) :
  disposed (queue s) = true →
  lock (queue s) = false →
  registry_ok s →
  ∃ s',
    run zero cs s = Returns tt s'
    ∧ disposed (queue s') = true
    ∧ lock (queue s') = false
    ∧ (∀ x its, Put (x :: its) s' = Returns (Some ErrDisposed) s')
    ∧ (∀ number timeout, 1 ≤ number →
         Poll number timeout s' = Returns (None, Some ErrDisposed) s')
    ∧ (∀ number, 1 ≤ number →
         Get number s' = Returns (None, Some ErrDisposed) s')
    ∧ Peek zero s' = Returns (zero, Some ErrDisposed) s'
    ∧ (∀ checker, TakeUntil (Some checker) s'
                  = Returns (None, Some ErrDisposed) s')
    ∧ Put [] s' = Returns None s'
    ∧ (∀ number timeout, number < 1 →
         Poll number timeout s' = Returns (Some [], None) s')
    ∧ TakeUntil None s' = Returns (None, None) s'.
Proof.
  intros Hd Hl Hok.
  destruct (disposed_run_returns s cs Hd Hl Hok)
    as (s' & Hrun & Hd' & Hl' & _).
  destruct (disposed_calls s' Hd' Hl') as (HPut & HPoll & HGet & HPeek & HTake).
  exists s'. repeat split; try done.
  intros number timeout Hn. by apply Poll_nonpositive_number.
Qed.

Lemma disposed_state_fixed (h : gmap loc sema) (c : call T) :
  do_call zero c (disposed_state h) = Returns tt (disposed_state h).
Proof.
  destruct (disposed_calls (disposed_state h) eq_refl eq_refl)
    as (HPut & HPoll & HGet & HPeek & HTake).
  destruct c as [its|number|number timeout| |checker| | | |];
    cbn [do_call].
  - destruct its as [|x its]; [|rewrite HPut]; done.
  - destruct (Z.lt_ge_cases number 1) as [Hlt|Hge].
    + by destruct (Poll_nonpositive_number (disposed_state h) number 0 Hlt)
        as [_ ->].
    + by rewrite HGet.
  - destruct (Z.lt_ge_cases number 1) as [Hlt|Hge].
    + by destruct (Poll_nonpositive_number (disposed_state h) number
                     timeout Hlt) as [-> _].
    + by rewrite HPoll.
  - by rewrite HPeek.
  - destruct checker as [checker|]; [rewrite HTake|]; done.
  - done.
  - done.
  - done.
  - done.
Qed.

Lemma disposed_state_run (h : gmap loc sema) (cs : list (call T)) :
  run zero cs (disposed_state h) = Returns tt (disposed_state h).
Proof.
  induction cs as [|c cs IH]; [done|].
  cbn [run]. by rewrite disposed_state_fixed.
Qed.

(** C3: called with the mutex free, [Dispose] returns the buffered items,
    all of them and in order, and leaves the queue disposed, with a nil
    buffer and a nil waiter registry, after signalling every registered
    waiter.  A second [Dispose] returns a nil slice and changes nothing,
    and so does a [Dispose] after any further calls, none of which
    changes anything either.  [New(hint)] returns a queue for every
    [hint] that [make] accepts as a capacity (it panics for the others),
    and on every queue [New] returns [Dispose] returns an empty slice. *)
Theorem Dispose_spec s :
  lock (queue s) = false →
  registry_ok s →
  ∃ h',
    Dispose_loop (elems (waiters (queue s))) (heap s) = Some h'
    ∧ Dispose s = Returns (items (queue s)) (disposed_state h')
    ∧ Dispose (disposed_state h' : state T)
      = Returns None (disposed_state h')
    ∧ (∀ cs, run zero cs (disposed_state h')
             = Returns tt (disposed_state h'))
    ∧ (∀ hint, 0 ≤ hint ≤ max_cap T → ∃ q : state T, New hint = Some q)
    ∧ (∀ hint (q : state T),
         New hint = Some q →
         Dispose q = Returns (Some []) (disposed_state ∅)).
Proof.
  intros Hl Hok.
  destruct (Dispose_returns s Hl Hok) as (h' & Hloop & HD).
  exists h'. split; [done|]. split; [done|]. split; [done|].
  split; [intros cs; apply disposed_state_run|]. split.
  - intros hint Hh%make_fits_spec. exists new_queue.
    unfold New. by rewrite Hh.
  - intros hint q. unfold New. destruct (make_fits T hint); [|done].
    by intros [= <-].
Qed.

End Items.

(** ** ExecuteInParallel *)

Section Parallel.

Context {I : Type} `{!Alloc I}.
Variable int0 : I.

(** ** The worker goroutines *)

(** Once the cursor is past the last index every iteration retires one
    worker. *)
Lemma run_workers_retire (todo : Z) (w fuel : nat) (d : Z)
    (sl cl : list I) :
  todo ≤ d + 1 →
  (w ≤ fuel)%nat →
  run_workers int0 fuel todo (Pool d (Z.of_nat w) sl cl)
  = Returns tt (Pool (d + Z.of_nat w) 0 sl cl).
Proof.
  revert fuel d. induction w as [|w IH]; intros fuel d Hd Hfuel.
  - destruct fuel; simpl; by rewrite Z.add_0_r.
  - destruct fuel as [|fuel]; [lia|].
    cbn [run_workers wg]. rewrite (proj2 (Z.eqb_neq _ 0)) by lia.
    unfold worker_iteration. cbn [done wg slots calls].
    rewrite (proj2 (Z.geb_le _ _)) by lia.
    replace (Z.of_nat (S w) - 1) with (Z.of_nat w) by lia.
    rewrite IH by lia. do 2 f_equal. lia.
Qed.

(** While items are left every iteration claims the next one, applies [fn]
    to it and overwrites it. *)
Lemma run_workers_claim (rest pre : list I) (w fuel : nat) (cl : list I) :
  (1 ≤ w)%nat →
  (length rest + w ≤ fuel)%nat →
  run_workers int0 fuel (Z.of_nat (length pre + length rest))
    (Pool (Z.of_nat (length pre) - 1) (Z.of_nat w) (pre ++ rest) cl)
  = Returns tt
      (Pool (Z.of_nat (length pre + length rest) - 1 + Z.of_nat w) 0
            (pre ++ replicate (length rest) int0) (cl ++ rest)).
Proof.
  revert pre fuel cl.
  induction rest as [|x rest IH]; intros pre fuel cl Hw Hfuel.
  - simpl length. rewrite Nat.add_0_r, !app_nil_r.
    simpl in Hfuel. by rewrite run_workers_retire by lia.
  - destruct fuel as [|fuel]; [simpl in Hfuel; lia|].
    cbn [run_workers wg]. rewrite (proj2 (Z.eqb_neq _ 0)) by lia.
    unfold worker_iteration. cbn [done wg slots calls].
    replace (Z.of_nat (length pre) - 1 + 1) with (Z.of_nat (length pre))
      by lia.
    rewrite Z.geb_leb, (proj2 (Z.leb_gt _ _)) by (simpl length; lia).
    unfold Slice.index. rewrite (proj2 (Z.ltb_ge _ 0)) by lia.
    rewrite Nat2Z.id. simpl elems.
    rewrite list_lookup_middle by done.
    rewrite insert_app_r_alt by lia. rewrite Nat.sub_diag. simpl.
    specialize (IH (pre ++ [int0]) fuel (cl ++ [x]) Hw).
    rewrite length_app in IH. simpl length in *.
    replace (length pre + S (length rest))%nat
      with (length pre + 1 + length rest)%nat by lia.
    replace (Z.of_nat (length pre)) with (Z.of_nat (length pre + 1) - 1)
      by lia.
    rewrite <- !app_assoc in IH. simpl in IH.
    apply IH. lia.
Qed.

(** On a queue that holds items, called with the mutex free,
    [ExecuteInParallel] returns after applying [fn] once to every item
    buffered, and leaves the queue disposed. *)
Lemma ExecuteInParallel_applies_once (NumCPU : Z) (s : state I) :
  lock (queue s) = false →
  registry_ok s →
  elems (items (queue s)) ≠ [] →
  ∃ h',
    ExecuteInParallel int0 NumCPU (Some s)
    = Returns (elems (items (queue s))) (Some (disposed_state h')).
Proof.
  intros Hl Hok Hne. unfold ExecuteInParallel. rewrite Hl.
  cbn [queue heap set_lock items lock].
  destruct (items (queue s)) as [l|] eqn:Hits; [|done].
  simpl in Hne. cbn [len elems default].
  rewrite (proj2 (Z.eqb_neq _ 0)) by (destruct l; simpl length; [done|lia]).
  set (numCPU := if 1 <? NumCPU then NumCPU - 1 else 1).
  assert (∃ w : nat, numCPU = Z.of_nat w ∧ (1 ≤ w)%nat) as (w & -> & Hw).
  { subst numCPU. destruct (Z.ltb_spec 1 NumCPU).
    - exists (Z.to_nat (NumCPU - 1)). lia.
    - exists 1%nat. lia. }
  assert (run_workers int0 (Z.to_nat (Z.of_nat (length l) + Z.of_nat w))
            (Z.of_nat (length l)) (Pool (-1) (Z.of_nat w) l [])
          = Returns tt (Pool (Z.of_nat (length l) - 1 + Z.of_nat w) 0
                             (replicate (length l) int0) l)) as Hrun.
  { apply (run_workers_claim l [] w _ [] Hw). lia. }
  unfold id. rewrite Hrun.
  destruct (Dispose_returns
    (State (heap s)
       (set_lock (set_items (set_lock (queue s) true)
                            (Some (replicate (length l) int0))) false)))
    as (h' & _ & HD); [done|by destruct s as [h []]|].
  cbn [slots calls]. rewrite HD. by exists h'.
Qed.


(** C8: on a queue whose buffer is empty, [ExecuteInParallel] takes the
    mutex and returns without releasing it.  The call applies [fn] to
    nothing and does not dispose the queue, but it is no no-op: the
    mutex stays held, and every later call that takes it parks the
    caller. *)
Theorem ExecuteInParallel_empty_keeps_lock (NumCPU : Z) (s : state I) :
  lock (queue s) = false →
  len (items (queue s)) = 0 →
  ∃ s',
    ExecuteInParallel int0 NumCPU (Some s) = Returns [] (Some s')
    ∧ s' = State (heap s) (set_lock (queue s) true)
    ∧ s' ≠ s
    ∧ disposed (queue s') = disposed (queue s)
    ∧ (∀ x its, Put (x :: its) s' = Blocks s')
    ∧ (∀ number timeout, 1 ≤ number → Poll number timeout s' = Blocks s')
    ∧ Len s' = Blocks s'
    ∧ Dispose s' = Blocks s'.
Proof.
  intros Hl Hlen. eexists. split.
  - unfold ExecuteInParallel. rewrite Hl. cbn -[Z.eqb].
    by rewrite Hlen.
  - repeat split; try done.
    + intros Heq. apply (f_equal (λ s, lock (queue s))) in Heq.
      simpl in Heq. congruence.
    + intros number timeout Hn. unfold Poll.
      by replace (number <? 1) with false
        by (symmetry; apply Z.ltb_ge; lia).
Qed.

End Parallel.

(** ** The properties at work on queues of integers *)

(** the queue of scenario A after [Put(1, 2, 3)] *)
Lemma FIFO_order_witness :
  ∃ s1 s2 : state Z,
    run 0 [CPut [1; 2; 3]] new_queue = Returns tt s1
    ∧ Get 2 s1 = Returns (Some [1; 2], None) s2
    ∧ Peek 0 s2 = Returns (3, None) s2.
Proof.
  destruct (FIFO_order 0 new_queue [[1; 2; 3]] 2 0 eq_refl eq_refl eq_refl)
    as (s1 & s2 & Hrun & _ & _ & HGet & _ & _ & _ & _ & _ & HPeek).
  - intros _. split; [discriminate|by vm_compute].
  - exists s1, s2. split; [exact Hrun|]. split; [exact HGet|].
    exact (HPeek 3 [] eq_refl).
Defined.

(** After [Put(1, 2, 3)], [Get(math.MaxInt64)] panics. *)
Example Get_MaxInt64_panics :
  ∃ s1 : state Z,
    run 0 [CPut [1; 2; 3]] new_queue = Returns tt s1
    ∧ Get (2 ^ 63 - 1) s1 = Panics.
Proof. eexists. split; by vm_compute. Qed.

(** With nothing buffered [Get(1)] does not return: it registers a waiter
    and parks; [Poll(1, 50)] returns no items and the timeout error. *)
Lemma FIFO_order_empty_buffer_counterexample :
  run 0 (CPut <$> []) (new_queue : state Z) = Returns tt new_queue
  ∧ Get 1 (new_queue : state Z)
    = Blocks (State {[0%nat := newSema]}
                {| waiters := Some [0%nat]; items := Some []; lock := false;
                   disposed := false |})
  ∧ Poll 1 50 (new_queue : state Z)
    = Returns (None, Some ErrTimeout)
        (State {[0%nat := Sema (Some true) 0]}
           {| waiters := Some []; items := Some []; lock := false;
              disposed := false |})
  ∧ ¬ (∃ s2, Get 1 (new_queue : state Z) = Returns (Some [], None) s2).
Proof.
  repeat split; try (vm_compute; reflexivity).
  intros [s2 Hs2]. vm_compute in Hs2. discriminate.
Qed.

(** On a disposed queue [Put()] with no items, [Poll(0, 0)] and
    [TakeUntil(nil)] return without an error. *)
Lemma disposal_poisoning_counterexample :
  Dispose (new_queue : state Z) = Returns (Some []) (disposed_state ∅)
  ∧ disposed (queue (disposed_state ∅ : state Z)) = true
  ∧ Put [] (disposed_state ∅ : state Z) = Returns None (disposed_state ∅)
  ∧ Poll 0 0 (disposed_state ∅ : state Z)
    = Returns (Some [], None) (disposed_state ∅)
  ∧ TakeUntil None (disposed_state ∅ : state Z)
    = Returns (None, None) (disposed_state ∅)
  ∧ Put [] (disposed_state ∅ : state Z)
    ≠ Returns (Some ErrDisposed) (disposed_state ∅).
Proof. repeat split; discriminate. Qed.

(** scenario E *)
Example Dispose_scenario_E :
  Dispose (new_queue : state Z) = Returns (Some []) (disposed_state ∅)
  ∧ Put [1] (disposed_state ∅ : state Z)
    = Returns (Some ErrDisposed) (disposed_state ∅).
Proof. by split. Qed.

Lemma disposal_poisoning_witness :
  ∃ s' : state Z,
    run 0 [CPut [1]; CGet 1; CDispose; CPeek] (disposed_state ∅)
    = Returns tt s'
    ∧ disposed (queue s') = true
    ∧ Put [7] s' = Returns (Some ErrDisposed) s'
    ∧ Get 1 s' = Returns (None, Some ErrDisposed) s'
    ∧ Peek 0 s' = Returns (0, Some ErrDisposed) s'.
Proof.
  destruct (disposal_poisoning 0 (disposed_state ∅)
              [CPut [1]; CGet 1; CDispose; CPeek] eq_refl eq_refl)
    as (s' & Hrun & Hd & _ & HPut & _ & HGet & HPeek & _).
  - intros p Hp. inversion Hp.
  - exists s'. split; [exact Hrun|]. split; [exact Hd|].
    split; [exact (HPut 7 [])|]. split; [apply HGet; lia|exact HPeek].
Defined.

Lemma Dispose_spec_witness :
  ∃ h',
    Dispose (State ∅ {| waiters := None; items := Some [1; 2; 3];
                        lock := false; disposed := false |})
    = Returns (Some [1; 2; 3]) (disposed_state h')
    ∧ Dispose (disposed_state h' : state Z)
      = Returns None (disposed_state h')
    ∧ ∃ q : state Z,
        New 0 = Some q
        ∧ Dispose q = Returns (Some []) (disposed_state ∅).
Proof.
  destruct (Dispose_spec 0
              (State ∅ {| waiters := None; items := Some [1; 2; 3];
                          lock := false; disposed := false |}) eq_refl)
    as (h' & _ & HD & HD' & _ & HNew & Hfresh).
  - intros p Hp. inversion Hp.
  - exists h'. split; [exact HD|]. split; [exact HD'|].
    destruct (HNew 0) as [q Hq]; [by vm_compute|].
    exists q. split; [exact Hq|]. exact (Hfresh 0 q Hq).
Defined.

(** scenario D *)
Lemma TakeUntil_spec_witness :
  ∃ (taken rest : list Z) (s' : state Z),
    TakeUntil (Some (λ x, x <? 3))
      (State ∅ {| waiters := None; items := Some [1; 2; 3; 4];
                  lock := false; disposed := false |})
    = Returns (Some taken, None) s'
    ∧ [1; 2; 3; 4] = taken ++ rest
    ∧ elems (items (queue s')) = rest.
Proof.
  destruct (TakeUntil_spec
              (State ∅ {| waiters := None; items := Some [1; 2; 3; 4];
                          lock := false; disposed := false |})
              (λ x, x <? 3) eq_refl eq_refl)
    as (taken & rest & s' & HT & Hsplit & _ & _ & Hrest & _).
  exists taken, rest, s'. split; [exact HT|]. split; [exact Hsplit|exact Hrest].
Defined.

Example TakeUntil_scenario_D :
  TakeUntil (Some (λ x, x <? 3))
    (State ∅ {| waiters := None; items := Some [1; 2; 3; 4];
                lock := false; disposed := false |})
  = Returns (Some [1; 2], None)
      (State ∅ {| waiters := None; items := Some [3; 4];
                  lock := false; disposed := false |}).
Proof. reflexivity. Qed.

Lemma Peek_spec_witness :
  Peek 0 (State ∅ {| waiters := None; items := Some [3];
                     lock := false; disposed := false |})
  = Returns (3, None)
      (State ∅ {| waiters := None; items := Some [3];
                  lock := false; disposed := false |})
  ∧ Peek 0 new_queue = Returns (0, Some ErrEmptyQueue) new_queue
  ∧ Peek 0 (disposed_state ∅)
    = Returns (0, Some ErrDisposed) (disposed_state ∅).
Proof.
  split; [|split].
  - exact (Peek_spec 0
             (State ∅ {| waiters := None; items := Some [3];
                         lock := false; disposed := false |}) eq_refl).
  - exact (Peek_spec 0 new_queue eq_refl).
  - exact (Peek_spec 0 (disposed_state ∅) eq_refl).
Defined.

Lemma Poll_nonpositive_number_witness :
  Poll 0 5 (disposed_state ∅ : state Z)
  = Returns (Some [], None) (disposed_state ∅)
  ∧ Get 0 (disposed_state ∅ : state Z)
    = Returns (Some [], None) (disposed_state ∅).
Proof. apply (Poll_nonpositive_number (disposed_state ∅) 0 5). lia. Defined.

Lemma ExecuteInParallel_empty_keeps_lock_witness :
  ∃ s' : state Z,
    ExecuteInParallel 0 4 (Some new_queue) = Returns [] (Some s')
    ∧ lock (queue s') = true
    ∧ Put [1] s' = Blocks s'
    ∧ Dispose s' = Blocks s'.
Proof.
  destruct (ExecuteInParallel_empty_keeps_lock 0 4 new_queue eq_refl eq_refl)
    as (s' & HE & Hs' & _ & _ & HPut & _ & _ & HD).
  exists s'. split; [exact HE|]. split; [by rewrite Hs'|].
  split; [exact (HPut 1 [])|exact HD].
Defined.


End QueueSpec.

(** * Properties of package futures *)

Module FuturesSpec.

Import Futures.

Section Selectable.

Context {T E : Type}.
Variable zero : T.
Variable ErrFutureCanceled : E.

Implicit Types (s : state T E) (v : T) (e : option E).

Lemma NewSelectable_between_calls :
  between_calls (NewSelectable zero : state T E).
Proof. by split. Qed.

(** A fulfilled future is left as it is by every call, and [Fill] returns
    the error it holds. *)
Lemma Fill_fulfilled s v e :
  m (fut s) = false →
  filled (fut s) ≠ 0 →
  Fill v e s = Returns (err (fut s)) s.
Proof.
  intros Hm Hf. unfold Fill. rewrite Hm.
  by replace (filled (fut s) =? 0) with false
    by (symmetry; by apply Z.eqb_neq).
Qed.

Lemma GetResult_fulfilled s :
  filled (fut s) ≠ 0 →
  GetResult s = Returns (val (fut s), err (fut s)) s.
Proof.
  intros Hf. unfold GetResult.
  by replace (filled (fut s) =? 0) with false
    by (symmetry; by apply Z.eqb_neq).
Qed.



(** The first [Fill] of a future returns and stores its arguments. *)
Lemma Fill_unfulfilled s v e :
  between_calls s →
  filled (fut s) = 0 →
  ∃ s1,
    Fill v e s = Returns e s1
    ∧ val (fut s1) = v
    ∧ err (fut s1) = e
    ∧ filled (fut s1) = 1
    ∧ m (fut s1) = false
    ∧ wait (fut s1) = Some closed.
Proof.
  intros [Hm Hw] Hf. specialize (Hw Hf). unfold Fill.
  rewrite Hm, Hf. simpl.
  destruct (wait (fut s)) as [[|id]|]; [done| |by eexists].
  simpl. rewrite Hw. by eexists.
Qed.


(** The states between calls are closed under the calls that return. *)
Lemma between_calls_preserved s (c : call T E) s' :
  between_calls s →
  do_call zero ErrFutureCanceled c s = Returns tt s' →
  between_calls s'.
Proof.
  intros Hok.
  assert (∀ v e r s', Fill v e s = Returns r s' → between_calls s') as HF.
  { intros v e r s2. destruct (Z.eq_dec (filled (fut s)) 0) as [Hf|Hf].
    - destruct (Fill_unfulfilled s v e Hok Hf)
        as (s1 & -> & _ & _ & Hf1 & Hm1 & _).
      intros [= _ <-]. split; [done|]. lia.
    - rewrite Fill_fulfilled by (done || apply Hok). by intros [= _ <-]. }
  assert (∀ r s', wchan s = Returns r s' →
            between_calls s' ∧
            (filled (fut s') = 0 → is_closed (chans s') r = false))
    as HW.
  { intros r s2. unfold wchan. pose proof Hok as [Hm Hw]. rewrite Hm.
    destruct (wait (fut s)) as [ch|] eqn:Hch.
    - intros [= <- <-]. split; [exact Hok|].
      intros Hf. specialize (Hw Hf).
      destruct ch as [|id]; [done|]. simpl. by rewrite Hw.
    - intros [= <- <-]. simpl. split.
      + split; [done|]. simpl. intros _. by rewrite lookup_insert_eq.
      + intros _. by rewrite lookup_insert_eq. }
  destruct c as [v e|v|e| | |]; cbn [do_call].
  - destruct (Fill v e s) eqn:HFe; [|done..]. intros [= <-]. eauto.
  - unfold SetValue. destruct (Fill v None s) eqn:HFe; [|done..].
    intros [= <-]. eauto.
  - unfold SetError. destruct (Fill zero e s) eqn:HFe; [|done..].
    intros [= <-]. eauto.
  - unfold Cancel, SetError.
    destruct (Fill zero (Some ErrFutureCanceled) s) eqn:HFe; [|done..].
    intros [= <-]. eauto.
  - unfold GetResult. destruct (filled (fut s) =? 0).
    + destruct (wchan s) as [r s2| |] eqn:HWe; [|done..].
      destruct (HW _ _ eq_refl) as [Hok2 _].
      destruct (is_closed (chans s2) r); [|done]. by intros [= <-].
    + by intros [= <-].
  - unfold WaitChan. destruct (filled (fut s) =? 1).
    + by intros [= <-].
    + destruct (wchan s) as [r s2| |] eqn:HWe; [|done..].
      intros [= <-]. by destruct (HW _ _ eq_refl).
Qed.

End Selectable.



End FuturesSpec.

(** * Properties of a waiting Poll against a concurrent Put *)

Module RaceSpec.

Import Queue Race.

Section Race.

Context {T : Type} `{!Alloc T}.
Variable tok : loc.
Variables number timeout : Z.
Variable put_items : list T.

(** the idle queue the consumer found: not disposed, mutex free, buffer
    empty, nobody waiting *)
Variable s0 : state T.
Hypothesis s0_not_disposed : disposed (queue s0) = false.
Hypothesis s0_unlocked : lock (queue s0) = false.
Hypothesis s0_empty : len (items (queue s0)) = 0.
Hypothesis s0_no_waiters : elems (waiters (queue s0)) = [].
Hypothesis put_some : put_items ≠ [].
(** [Poll] came to wait, and [make] accepts the capacity it will ask for *)
Hypothesis number_fits : 1 ≤ number ≤ max_cap T.

Abbreviation config := (config T).
Abbreviation step := (step tok number timeout put_items).
Abbreviation exec := (exec tok number timeout put_items).

(** ** Every run is short *)

Lemma waiters_remove_length (w : slice loc) :
  (length (elems (waiters_remove w tok)) ≤ length (elems w))%nat.
Proof.
  unfold waiters_remove. destruct (len w =? 0); [done|].
  simpl. apply length_filter.
Qed.

Lemma producer_rank_mono (q : producer) (k k' : nat) :
  (k ≤ k')%nat → (producer_rank q k ≤ producer_rank q k')%nat.
Proof. destruct q; simpl; lia. Qed.

Lemma step_rank (a : action) (c c' : config) :
  step a c = Some c' → (rank c' < rank c)%nat.
Proof.
  destruct c as [[h [w its l d]] pc pq lg]. unfold rank.
  destruct a; simpl.
  - unfold timer_step; simpl. destruct pc; try done.
    destruct (0 <? timeout); [|done]. intros [= <-]. simpl. lia.
  - unfold consumer_step; simpl. destruct pc; try done.
    + destruct (h !! tok) as [[[b|] n]|]; try done.
      intros [= <-]. simpl. lia.
    + destruct d; intros [= <-]; simpl; lia.
    + destruct (items_get its number) as [[]|]; intros [= <-]; simpl; lia.
    + destruct (h !! tok ≫= response_Done); intros [= <-]; simpl; lia.
    + destruct (h !! tok) as [sm|]; [|intros [= <-]; simpl; lia].
      destruct (try_send sm) as [sm' []]; intros [= <-]; simpl; lia.
    + destruct l; [done|]. intros [= <-]. simpl. lia.
    + intros [= <-]. simpl.
      pose proof (waiters_remove_length w).
      pose proof (producer_rank_mono pq _ _ H). lia.
    + intros [= <-]. simpl. lia.
    + destruct (h !! tok ≫= response_Done); intros [= <-]; simpl; lia.
  - unfold producer_step; simpl.
    destruct pq as [| | | |sema|sema|sema| | |e|]; try done.
    + destruct (Z.of_nat (length put_items) =? 0);
        [intros [= <-]; simpl; lia|].
      destruct l; [done|]. intros [= <-]. simpl. lia.
    + destruct d; intros [= <-]; simpl; lia.
    + intros [= <-]. simpl. lia.
    + destruct w as [[|p w]|]; intros [= <-]; simpl; lia.
    + destruct (h !! sema); intros [= <-]; simpl; lia.
    + destruct (h !! sema) as [sm|]; [|intros [= <-]; simpl; lia].
      destruct (try_send sm) as [sm' []]; intros [= <-]; simpl; lia.
    + destruct (h !! sema) as [sm|]; [|intros [= <-]; simpl; lia].
      destruct (Nat.eqb (response sm) 0); [|done].
      intros [= <-]. simpl. lia.
    + destruct (len its =? 0); intros [= <-]; simpl; lia.
    + intros [= <-]. simpl. lia.
Qed.

Lemma exec_rank (sched : list action) (c c' : config) :
  exec sched c = Some c' → (length sched + rank c' ≤ rank c)%nat.
Proof.
  revert c. induction sched as [|a sched IH]; intros c; simpl.
  - intros [= <-]. lia.
  - destruct (step a c) as [c1|] eqn:Hstep; [|done].
    intros Hexec. apply IH in Hexec. apply step_rank in Hstep. lia.
Qed.

(** ** The configurations of a run *)

(** The run starts where a [Poll] without a timeout parks on its own. *)
Lemma Poll_parks_registered :
  timeout ≤ 0 →
  1 ≤ number →
  Poll number timeout s0 = Blocks (registered (fresh (dom (heap s0))) s0).
Proof.
  intros Ht Hn. unfold Poll.
  rewrite (proj2 (Z.ltb_ge _ _)) by lia.
  rewrite s0_unlocked, s0_not_disposed, s0_empty. simpl.
  by rewrite (proj2 (Z.ltb_ge _ _)) by lia.
Qed.

Abbreviation its0 := (items (queue s0)).
Abbreviation shape := (shape tok number put_items its0).
Abbreviation invariant := (invariant tok number put_items its0).

Lemma remove_tok : waiters_remove (Some [tok]) tok = Some [].
Proof.
  unfold waiters_remove. simpl. rewrite filter_cons.
  by rewrite decide_False by (intros H; by apply H).
Qed.

Lemma producer_event_tok (sent : bool) (l : list event) :
  producer_event tok tok sent l
  = (if sent then Sent Producer else Refused Producer) :: l.
Proof. unfold producer_event. by rewrite decide_True. Qed.

Lemma put_items_length : (Z.of_nat (length put_items) =? 0) = false.
Proof.
  destruct put_items; [done|]. apply Z.eqb_neq. simpl length. lia.
Qed.

Lemma put_buffer_length : (len (put_buffer put_items its0) =? 0) = false.
Proof.
  unfold put_buffer, append. destruct put_items as [|x l]; [done|].
  apply Z.eqb_neq. simpl. rewrite length_app. simpl. lia.
Qed.

(** [items.get] on the buffer the producer has filled: its [make]
    returns. *)
Lemma get_put_buffer :
  items_get (put_buffer put_items its0) number
  = Some (taken number put_items its0, left number put_items its0).
Proof.
  unfold items_get, taken, left.
  rewrite (proj2 (QueueSpec.make_fits_spec number)) by lia.
  by rewrite <- surjective_pairing.
Qed.

(** Case analysis on the shape of a configuration, down to the places of
    the two goroutines. *)
Ltac shape_cases Hshape :=
  inversion Hshape; subst;
  repeat match goal with
         | H : waiting _ |- _ => inversion H; clear H; subst
         | H : received _ |- _ => inversion H; clear H; subst
         | H : released _ _ _ |- _ => inversion H; clear H; subst
         | H : through _ _ |- _ => inversion H; clear H; subst
         | H : unserved _ _ _ _ _ |- _ => inversion H; clear H; subst
         | H : before_pop _ _ _ _ _ |- _ => inversion H; clear H; subst
         end.

Lemma start_invariant : invariant (start tok s0).
Proof.
  exists None, O. simpl. rewrite lookup_insert_eq.
  split; [done|]. split; [done|].
  unfold waiters_put, append. rewrite s0_no_waiters, s0_unlocked. simpl.
  constructor; constructor.
Qed.

Lemma step_invariant (a : action) (c c' : config) :
  invariant c → step a c = Some c' → invariant c'.
Proof.
  destruct c as [[h [w its l d]] pc pq lg].
  intros (r & n & Hlk & Hd & Hshape). simpl in Hlk, Hd, Hshape. subst d.
  shape_cases Hshape;
    destruct a; simpl;
    unfold timer_step, consumer_step, producer_step, with_sema, with_queue;
    simpl;
    rewrite ?Hlk, ?put_items_length, ?remove_tok, ?put_buffer_length,
      ?get_put_buffer;
    simpl;
    try done;
    try (destruct (0 <? timeout); [|done]);
    try match goal with
        | |- context [len ?x =? 0] => destruct (len x =? 0)
        end;
    intros [= <-];
    (eexists _, _; simpl;
     rewrite ?lookup_insert_eq, ?producer_event_tok;
     split; [first [done | exact Hlk]|]; split; [done|]);
    by repeat constructor.
Qed.

Lemma exec_invariant (sched : list action) (c c' : config) :
  invariant c → exec sched c = Some c' → invariant c'.
Proof.
  revert c. induction sched as [|a sched IH]; intros c Hinv; simpl.
  - by intros [= <-].
  - destruct (step a c) as [c1|] eqn:Hstep; [|done].
    apply IH. by apply (step_invariant a c).
Qed.

(** ** What the invariant gives *)

Lemma its0_elems : elems its0 = [].
Proof.
  pose proof s0_empty as H. destruct its0 as [[|x l]|]; simpl in *;
    try done; lia.
Qed.

Lemma put_buffer_elems : elems (put_buffer put_items its0) = put_items.
Proof.
  unfold put_buffer. destruct put_items as [|x l]; [done|].
  simpl. by rewrite its0_elems.
Qed.

Lemma put_buffer_Some : put_buffer put_items its0 = Some put_items.
Proof.
  unfold put_buffer. destruct put_items as [|x l]; [done|].
  simpl. by rewrite its0_elems.
Qed.

Lemma taken_spec :
  taken number put_items its0 = Some (take (Z.to_nat number) put_items).
Proof.
  unfold taken. rewrite QueueSpec.get_result_spec. simpl.
  by rewrite put_buffer_elems.
Qed.

Lemma left_spec :
  left number put_items its0 = Some (drop (Z.to_nat number) put_items).
Proof.
  unfold left. rewrite QueueSpec.get_result_spec. simpl.
  by rewrite put_buffer_Some.
Qed.

(** A configuration in which a goroutine has still to return has an
    enabled step. *)
Lemma invariant_progress (c : config) :
  invariant c → finished c = false → ∃ a c', step a c = Some c'.
Proof.
  destruct c as [[h [w its l d]] pc pq lg].
  intros (r & n & Hlk & Hd & Hshape). simpl in Hlk, Hd, Hshape. subst d.
  shape_cases Hshape;
    simpl; try done; intros _;
    first
      [ exists ProducerStep; simpl; unfold producer_step; simpl;
        rewrite ?Hlk, ?put_items_length; simpl;
        repeat case_match; by eauto
      | exists ConsumerStep; simpl; unfold consumer_step; simpl;
        rewrite ?Hlk; simpl;
        repeat case_match; by eauto ].
Qed.

(** The consumer returns the items with a nil error, or no items with
    the timeout error; in the second case it has left the buffer alone. *)
Lemma invariant_result (c : config) (its : slice T) (e : option error) :
  invariant c →
  cons c = PReturned its e →
  (its = Some (take (Z.to_nat number) put_items) ∧ e = None
   ∧ items (queue (shared c)) = Some (drop (Z.to_nat number) put_items)
   ∧ log c = [Sent Producer])
  ∨ (its = None ∧ e = Some ErrTimeout
     ∧ (items (queue (shared c)) = its0
        ∨ items (queue (shared c)) = Some put_items)
     ∧ attempted Consumer (log c) = true).
Proof.
  destruct c as [[h [w its' l d]] pc pq lg].
  intros (r & n & Hlk & Hd & Hshape) Hpc. simpl in *. subst pc.
  shape_cases Hshape;
    first [ left; by rewrite taken_spec, left_spec
          | right; rewrite <- ?put_buffer_Some; by auto ].
Qed.

(** At most one send on the semaphore goes through, and exactly one when
    both goroutines have attempted one; nobody panics. *)
Lemma invariant_sends (c : config) :
  invariant c →
  (sent_count (log c) ≤ 1)%nat
  ∧ (attempted Consumer (log c) = true →
     attempted Producer (log c) = true →
     sent_count (log c) = 1%nat)
  ∧ cons c ≠ PPanicked
  ∧ prod c ≠ QPanicked.
Proof.
  destruct c as [[h [w its' l d]] pc pq lg].
  intros (r & n & Hlk & Hd & Hshape). simpl in *.
  shape_cases Hshape; unfold sent_count; simpl; repeat split;
    try done; lia.
Qed.

(** When both goroutines have returned, the producer has returned nil,
    the mutex is free and the registry is empty. *)
Lemma invariant_finished (c : config) :
  invariant c →
  finished c = true →
  prod c = QReturned None
  ∧ lock (queue (shared c)) = false
  ∧ waiters (queue (shared c)) = Some [].
Proof.
  destruct c as [[h [w its' l d]] pc pq lg].
  intros (r & n & Hlk & Hd & Hshape). simpl in *.
  shape_cases Hshape; simpl; by try done.
Qed.

(** X22: in every interleaving of a [Poll] waiting on an empty buffer for
    a number of items that [make] accepts as a capacity, and a concurrent
    [Put] of at least one item, whenever the timer fires:
    the consumer returns either the first items put with a nil error or
    no items with the timeout error, and in the second case it has taken
    nothing from the buffer; at most one send on the semaphore goes
    through, and exactly one when the consumer and the producer have both
    attempted one; nobody panics; as long as one of the two has not
    returned some step is enabled, and no run has more than 15 steps, so
    that the producer is never left waiting; and when both have returned
    the mutex is free and the registry is empty. *)
Theorem timeout_exclusivity (sched : list action) (c : config) :
  exec sched (start tok s0) = Some c →
  (∀ its e, cons c = PReturned its e →
     (its = Some (take (Z.to_nat number) put_items) ∧ e = None
      ∧ items (queue (shared c)) = Some (drop (Z.to_nat number) put_items)
      ∧ log c = [Sent Producer])
     ∨ (its = None ∧ e = Some ErrTimeout
        ∧ (items (queue (shared c)) = its0
           ∨ items (queue (shared c)) = Some put_items)
        ∧ attempted Consumer (log c) = true))
  ∧ (sent_count (log c) ≤ 1)%nat
  ∧ (attempted Consumer (log c) = true →
     attempted Producer (log c) = true →
     sent_count (log c) = 1%nat)
  ∧ cons c ≠ PPanicked
  ∧ prod c ≠ QPanicked
  ∧ (finished c = false → ∃ a c', step a c = Some c')
  ∧ (length sched ≤ 15)%nat
  ∧ (finished c = true →
     prod c = QReturned None
     ∧ lock (queue (shared c)) = false
     ∧ waiters (queue (shared c)) = Some []).
Proof.
  intros Hexec.
  assert (invariant c) as Hinv
    by exact (exec_invariant sched _ c start_invariant Hexec).
  destruct (invariant_sends c Hinv) as (Hle & Hone & Hpc & Hpq).
  split; [intros its e; by apply invariant_result|].
  do 4 (split; [done|]).
  split; [by apply invariant_progress|].
  split; [|by apply invariant_finished].
  apply exec_rank in Hexec. unfold rank in Hexec at 2. simpl in Hexec.
  unfold waiters_put, append in Hexec. rewrite s0_no_waiters in Hexec.
  simpl in Hexec. lia.
Qed.

End Race.

(** ** A number of items that [make] refuses *)

Section Oversized.

Context {T : Type} `{!Alloc T}.
Variable tok : loc.
Variables number timeout : Z.
Variable put_items : list T.

Variable s0 : state T.
Hypothesis s0_not_disposed : disposed (queue s0) = false.
Hypothesis s0_unlocked : lock (queue s0) = false.
Hypothesis s0_empty : len (items (queue s0)) = 0.
Hypothesis s0_no_waiters : elems (waiters (queue s0)) = [].
Hypothesis put_some : put_items ≠ [].
(** the consumer asked for more items than [make] accepts as a capacity *)
Hypothesis number_oversized : max_cap T < number.

(** C4: a [Poll] that waits on an empty buffer for more items than [make]
    accepts as a capacity, and a concurrent [Put] of at least one item.
    When the producer wins the semaphore (it takes the mutex, appends,
    pops the waiter, raises its wait group and sends) and the consumer
    receives, the consumer panics in [items.get], at
    [make([]T, 0, number)], before [sema.response.Done()].  The consumer
    gets neither the items nor the timeout error, and the producer stands
    in [sema.response.Wait()] with the counter at 1 and the mutex held:
    no step is enabled any more, so it waits for an answer that will not
    come. *)
Theorem oversized_Poll_strands_producer :
  ∃ c : config T,
    exec tok number timeout put_items
         [ProducerStep; ProducerStep; ProducerStep; ProducerStep;
          ProducerStep; ProducerStep; ConsumerStep; ConsumerStep;
          ConsumerStep]
         (start tok s0) = Some c
    ∧ cons c = PPanicked
    ∧ prod c = QWait tok
    ∧ heap (shared c) !! tok = Some (Sema None 1)
    ∧ lock (queue (shared c)) = true
    ∧ finished c = false
    ∧ ∀ a, step tok number timeout put_items a c = None.
Proof.
  destruct s0 as [h [w its l d]]. simpl in *. subst l d.
  assert (items_get (append its put_items) number = None) as Hget.
  { apply QueueSpec.items_get_None. by right. }
  assert ((Z.of_nat (length put_items) =? 0) = false) as Hlen.
  { destruct put_items; [done|]. apply Z.eqb_neq. simpl length. lia. }
  assert (waiters_get (waiters_put w tok) = (Some tok, Some [])) as Hw.
  { unfold waiters_put, append. by rewrite s0_no_waiters. }
  eexists. split.
  - unfold start, registered.
    cbn [exec step producer_step shared cons prod log queue heap lock
         disposed items waiters with_queue set_lock set_items
         set_waiters].
    rewrite Hlen.
    cbn [exec step producer_step shared cons prod log queue heap lock
         disposed items waiters with_queue set_lock set_items
         set_waiters].
    rewrite Hw.
    cbn [exec step producer_step consumer_step shared cons prod log queue
         heap lock disposed items waiters with_queue with_sema set_lock
         set_items set_waiters].
    rewrite !lookup_insert_eq.
    cbn [exec step producer_step consumer_step newSema response_Add1
         try_send ready response shared cons prod log queue heap lock
         disposed items waiters with_queue with_sema set_lock set_items
         set_waiters].
    rewrite !lookup_insert_eq.
    cbn [exec step producer_step consumer_step newSema response_Add1
         try_send ready response shared cons prod log queue heap lock
         disposed items waiters with_queue with_sema set_lock set_items
         set_waiters].
    rewrite !lookup_insert_eq.
    cbn [exec step producer_step consumer_step newSema response_Add1
         try_send ready response shared cons prod log queue heap lock
         disposed items waiters with_queue with_sema set_lock set_items
         set_waiters].
    rewrite Hget. reflexivity.
  - simpl. rewrite lookup_insert_eq. do 5 (split; [done|]).
    intros []; simpl; unfold timer_step, consumer_step, producer_step;
      simpl; rewrite ?lookup_insert_eq; done.
Qed.

End Oversized.

(** [Poll(math.MaxInt64, 1)] waits on a new queue and [Put(10, 20)] hands
    over: the consumer panics and the producer is left in [Wait]. *)
Lemma oversized_Poll_strands_producer_witness :
  let sched := [ProducerStep; ProducerStep; ProducerStep; ProducerStep;
                ProducerStep; ProducerStep; ConsumerStep; ConsumerStep;
                ConsumerStep] in
  ∃ c : config Z,
    exec 0%nat (2 ^ 63 - 1) 1 [10; 20] sched (start 0%nat new_queue)
    = Some c
    ∧ cons c = PPanicked
    ∧ prod c = QWait 0%nat
    ∧ lock (queue (shared c)) = true
    ∧ ∀ a, step 0%nat (2 ^ 63 - 1) 1 [10; 20] a c = None.
Proof.
  intros sched.
  destruct (oversized_Poll_strands_producer 0%nat (2 ^ 63 - 1) 1 [10; 20]
              new_queue eq_refl eq_refl eq_refl eq_refl
              ltac:(discriminate) ltac:(by vm_compute))
    as (c & Hexec & Hc & Hp & _ & Hl & _ & Hstuck).
  by exists c.
Defined.

(** The producer sends first, the timer fires and the consumer takes the
    timer case: its own send is refused, it answers the producer and returns
    the timeout error, and the two items stay in the buffer. *)
Lemma timeout_exclusivity_witness :
  let sched := [ProducerStep; ProducerStep; ProducerStep; ProducerStep;
                ProducerStep; ProducerStep; Timer; ConsumerStep; ConsumerStep;
                ProducerStep; ProducerStep; ProducerStep; ProducerStep] in
  let c := Config (State {[0%nat := Sema (Some true) 0]}
                     {| waiters := Some []; items := Some [10; 20];
                        lock := false; disposed := false |})
                  (PReturned None (Some ErrTimeout)) (QReturned None)
                  [Refused Consumer; Sent Producer] in
  exec 0%nat 1 1 [10; 20] sched (start 0%nat new_queue) = Some c
  ∧ (sent_count (log c) ≤ 1)%nat
  ∧ (length sched ≤ 15)%nat
  ∧ lock (queue (shared c)) = false.
Proof.
  intros sched c.
  assert (exec 0%nat 1 1 [10; 20] sched (start 0%nat new_queue) = Some c)
    as Hexec by (vm_compute; reflexivity).
  destruct (timeout_exclusivity 0%nat 1 1 [10; 20] new_queue
              eq_refl eq_refl eq_refl eq_refl
              ltac:(discriminate) ltac:(split; by vm_compute)
              sched c Hexec)
    as (_ & Hle & _ & _ & _ & _ & Hlen & Hfin).
  split; [exact Hexec|]. split; [exact Hle|]. split; [exact Hlen|].
  exact (proj1 (proj2 (Hfin eq_refl))).
Defined.


End RaceSpec.

(** * Further properties of package queue *)

Module QueueExtra.

Import Queue QueueIO.

Section Items.

Context {T : Type} `{!Alloc T}.
Variable zero : T.

Implicit Types (s : state T) (q : Queue T).

(** ** Nothing is lost and nothing is made up *)

Lemma len_elems (its : slice T) : len its = Z.of_nat (length (elems its)).
Proof. by destruct its. Qed.

Lemma take_drop_elems (its : slice T) (n : nat) :
  take n (elems its) ++ elems (drop n <$> its) = elems its.
Proof. destruct its; simpl; [apply take_drop|by rewrite take_nil]. Qed.

(** When the hand-off loop of [Put] returns, it returns nil and has left the
    buffer as it found it. *)
Lemma Put_loop_returns (ws : list loc) (h : gmap loc sema) q r s' :
  Put_loop ws h q = Returns r s' →
  r = None ∧ items (queue s') = items q.
Proof.
  revert h q. induction ws as [|p ws IH]; intros h q; simpl.
  - by intros [= <- <-].
  - destruct (h !! p) as [sm|]; [|done].
    destruct (try_send (response_Add1 sm)) as [sm1 sent].
    destruct (sent && negb (Nat.eqb (response sm1) 0)); [done|].
    simpl. destruct (len (items q) =? 0).
    + by intros [= <- <-].
    + intros Hloop. by apply IH in Hloop.
Qed.

Lemma call_io_balance (c : call T) s a s' :
  call_io zero c s = Returns a s' →
  elems (items (queue s)) ++ accepted a
  = delivered a ++ elems (items (queue s')).
Proof.
  destruct c as [its|number|number timeout| |checker| | | |]; simpl.
  - unfold Put. destruct (Z.of_nat (length its) =? 0) eqn:Hlen.
    + intros [= <- <-]. destruct its; [|simpl in Hlen; lia].
      simpl. by rewrite app_nil_r.
    + destruct (lock (queue s)); [done|].
      destruct (disposed (queue s)).
      * intros [= <- <-]. simpl. by rewrite app_nil_r.
      * destruct (Put_loop _ _ _) as [r s1| |] eqn:Hloop; [|done..].
        apply Put_loop_returns in Hloop as [-> Hits].
        intros [= <- <-]. simpl. rewrite Hits. simpl.
        by rewrite QueueSpec.elems_append.
  - unfold Get, Poll. destruct (number <? 1).
    { intros [= <- <-]. simpl. by rewrite app_nil_r. }
    destruct (lock (queue s)); [done|].
    destruct (disposed (queue s)).
    { intros [= <- <-]. simpl. by rewrite app_nil_r. }
    destruct (len (items (queue s)) =? 0); [done|].
    destruct (items_get _ _) as [[ret rest]|] eqn:Hget; [|done].
    apply QueueSpec.items_get_Some in Hget as [_ [= -> ->]].
    intros [= <- <-]. simpl.
    by rewrite app_nil_r, take_drop_elems.
  - unfold Poll. destruct (number <? 1).
    { intros [= <- <-]. simpl. by rewrite app_nil_r. }
    destruct (lock (queue s)); [done|].
    destruct (disposed (queue s)).
    { intros [= <- <-]. simpl. by rewrite app_nil_r. }
    destruct (len (items (queue s)) =? 0).
    + destruct (0 <? timeout); [|done]. simpl.
      intros [= <- <-]. simpl. by rewrite app_nil_r.
    + destruct (items_get _ _) as [[ret rest]|] eqn:Hget; [|done].
      apply QueueSpec.items_get_Some in Hget as [_ [= -> ->]].
      intros [= <- <-]. simpl.
      by rewrite app_nil_r, take_drop_elems.
  - unfold Peek. destruct (lock (queue s)); [done|].
    destruct (disposed (queue s)).
    { intros [= <- <-]. simpl. by rewrite app_nil_r. }
    destruct (items_peek zero (items (queue s))) as [x []]; simpl;
      intros [= <- <-]; simpl; by rewrite app_nil_r.
  - unfold TakeUntil. destruct checker as [checker|].
    + destruct (lock (queue s)); [done|].
      destruct (disposed (queue s)).
      { intros [= <- <-]. simpl. by rewrite app_nil_r. }
      destruct (QueueSpec.items_getUntil_spec (items (queue s)) checker)
        as (taken & rest & Hsplit & _ & _ & -> & Hrest).
      intros [= <- <-]. simpl. by rewrite app_nil_r, Hrest.
    + intros [= <- <-]. simpl. by rewrite app_nil_r.
  - unfold Empty. destruct (lock (queue s)); [done|].
    intros [= <- <-]. simpl. by rewrite app_nil_r.
  - unfold Len. destruct (lock (queue s)); [done|].
    intros [= <- <-]. simpl. by rewrite app_nil_r.
  - unfold Disposed. destruct (lock (queue s)); [done|].
    intros [= <- <-]. simpl. by rewrite app_nil_r.
  - unfold Dispose. destruct (lock (queue s)); [done|].
    destruct (Dispose_loop _ _); [|done].
    intros [= <- <-]. simpl. by rewrite !app_nil_r.
Qed.

(** X1: whatever calls one goroutine makes on a queue, in whatever state the
    queue is, if they all return then the items delivered, in the order of
    the calls, followed by the items left in the buffer are the items the
    buffer held followed by the items accepted: no item is lost, duplicated
    or reordered, and the length of the buffer is the balance of the two. *)
Theorem run_io_balance (cs : list (call T)) s a s' :
  run_io zero cs s = Returns a s' →
  elems (items (queue s)) ++ accepted a
  = delivered a ++ elems (items (queue s'))
  ∧ len (items (queue s)) + Z.of_nat (length (accepted a))
    = Z.of_nat (length (delivered a)) + len (items (queue s')).
Proof.
  intros Hrun.
  assert (elems (items (queue s)) ++ accepted a
          = delivered a ++ elems (items (queue s'))) as Hbal.
  { revert s a Hrun. induction cs as [|c cs IH]; intros s a; simpl.
    - intros [= <- <-]. simpl. by rewrite app_nil_r.
    - destruct (call_io zero c s) as [a1 s1| |] eqn:Hcall; [|done..].
      destruct (run_io zero cs s1) as [a2 s2| |] eqn:Hrun; [|done..].
      intros [= <- <-]. simpl.
      apply call_io_balance in Hcall. apply IH in Hrun.
      rewrite app_assoc, Hcall, <- !app_assoc. by rewrite Hrun. }
  split; [done|].
  apply (f_equal length) in Hbal. rewrite !length_app in Hbal.
  rewrite !len_elems. lia.
Qed.

(** ** Poll on an empty queue, alone *)

Lemma filter_other_app (l : list loc) (x : loc) :
  x ∉ l → filter (λ p, p ≠ x) (l ++ [x]) = l.
Proof.
  intros Hx. induction l as [|y l IH]; simpl.
  - rewrite filter_cons. by rewrite decide_False by (intros H; by apply H).
  - rewrite filter_cons. rewrite decide_True by (intros ->; apply Hx; by left).
    f_equal. apply IH. intros Hin. apply Hx. by right.
Qed.

(** X2: [Poll(number, timeout)] with [number >= 1] on an empty buffer, while
    no other goroutine runs.  The semaphore it makes is new.  With a positive
    timeout the call returns no items and the timeout error, and the queue is
    as it was: same waiters in the registry, same buffer, mutex free, not
    disposed.  Without a timeout the call parks, its semaphore registered
    after the waiters already there, and the mutex is free. *)
Theorem Poll_alone s (number timeout : Z) :
  disposed (queue s) = false →
  lock (queue s) = false →
  len (items (queue s)) = 0 →
  registry_ok s →
  1 ≤ number →
  let sema := fresh (dom (heap s)) in
  heap s !! sema = None
  ∧ (0 < timeout →
     Poll number timeout s
     = Returns (None, Some ErrTimeout)
         (State (<[sema := Sema (Some true) 0]> (heap s))
                (set_waiters (queue s) (Some (elems (waiters (queue s)))))))
  ∧ (timeout ≤ 0 →
     Poll number timeout s
     = Blocks
         (State (<[sema := newSema]> (heap s))
                (set_waiters (queue s)
                   (Some (elems (waiters (queue s)) ++ [sema]))))).
Proof.
  intros Hd Hl Hlen Hok Hn sema.
  assert (heap s !! sema = None) as Hfresh
    by (apply not_elem_of_dom, is_fresh).
  assert (sema ∉ elems (waiters (queue s))) as Hnotin.
  { intros Hin. apply Hok in Hin as [sm Hsm]. congruence. }
  split; [done|]. unfold Poll.
  rewrite (proj2 (Z.ltb_ge _ _)) by lia. rewrite Hl, Hd, Hlen. simpl.
  fold sema. split; intros Ht.
  - rewrite (proj2 (Z.ltb_lt _ _)) by lia. rewrite insert_insert_eq.
    do 3 f_equal. unfold waiters_remove, waiters_put, append.
    cbn [len elems default from_option].
    rewrite (proj2 (Z.eqb_neq _ 0)) by (rewrite length_app; simpl; lia).
    unfold id. by rewrite filter_other_app.
  - by rewrite (proj2 (Z.ltb_ge _ _)) by lia.
Qed.

(** ** Put and the waiters in the registry *)

Lemma Put_enters s (x : T) (its : list T) :
  disposed (queue s) = false →
  lock (queue s) = false →
  Put (x :: its) s
  = Put_loop (elems (waiters (queue s))) (heap s)
      (set_items (set_lock (queue s) true)
                 (append (items (queue s)) (x :: its))).
Proof.
  intros Hd Hl. unfold Put. simpl length.
  rewrite (proj2 (Z.eqb_neq _ 0)) by lia. by rewrite Hl, Hd.
Qed.

Lemma Put_loop_signalled (ws : list loc) (h : gmap loc sema) q :
  all_signalled ws h →
  len (items q) ≠ 0 →
  ∃ h',
    Put_loop ws h q
    = Returns None
        (State h' (set_lock (match ws with
                             | [] => q
                             | _ :: _ => set_waiters q (Some [])
                             end) false))
    ∧ (∀ p, ready <$> h' !! p = ready <$> h !! p).
Proof.
  intros Hall Hne. revert h q Hall Hne.
  induction ws as [|p ws IH]; intros h q Hall Hne; simpl.
  - by exists h.
  - destruct (Hall p) as (sm & Hsm & [b Hb]); [by left|].
    rewrite Hsm. unfold try_send, response_Add1. simpl. rewrite Hb. simpl.
    rewrite (proj2 (Z.eqb_neq _ 0)) by done.
    set (sm1 := {| ready := Some b; response := S (response sm) |}).
    assert (∀ p', ready <$> <[p := sm1]> h !! p' = ready <$> h !! p')
      as Hready.
    { intros p'. destruct (decide (p = p')) as [<-|Hne'].
      - rewrite lookup_insert_eq, Hsm. simpl. by rewrite Hb.
      - by rewrite lookup_insert_ne. }
    destruct (IH (<[p := sm1]> h) (set_waiters q (Some ws)))
      as (h' & Hloop & Hh'); [|done|].
    { intros p' Hp'. destruct (Hall p') as (sm' & Hsm' & Hr'); [by right|].
      destruct (decide (p = p')) as [<-|Hne'].
      - exists sm1. by rewrite lookup_insert_eq.
      - exists sm'. by rewrite lookup_insert_ne. }
    exists h'. split.
    + rewrite Hloop. by destruct ws.
    + intros p'. by rewrite Hh', Hready.
Qed.

(** X3: [Put] of at least one item on a queue all of whose waiters have
    their channel full already (they timed out and claimed their semaphore
    back).  The call sends nothing: it leaves every channel as it is, empties
    the registry, appends the items to the buffer and returns nil with the
    mutex free. *)
Theorem Put_drops_signalled s (x : T) (its : list T) :
  disposed (queue s) = false →
  lock (queue s) = false →
  all_signalled (elems (waiters (queue s))) (heap s) →
  ∃ h' w',
    Put (x :: its) s
    = Returns None
        (State h' {| waiters := w';
                     items := Some (elems (items (queue s)) ++ x :: its);
                     lock := false; disposed := false |})
    ∧ elems w' = []
    ∧ (∀ p, ready <$> h' !! p = ready <$> heap s !! p).
Proof.
  intros Hd Hl Hall. rewrite Put_enters by done.
  destruct (Put_loop_signalled (elems (waiters (queue s))) (heap s)
              (set_items (set_lock (queue s) true)
                         (append (items (queue s)) (x :: its))) Hall)
    as (h' & -> & Hh').
  { simpl. rewrite length_app. simpl. lia. }
  exists h'. destruct s as [h [w its0 l d]]. simpl in *. subst.
  destruct w as [[|p ws]|]; eexists; (split; [reflexivity|by split]).
Qed.

Lemma Put_loop_parks (stale : list loc) (p : loc) (rest : list loc)
    (h : gmap loc sema) q (sm : sema) :
  all_signalled stale h →
  h !! p = Some sm →
  ready sm = None →
  len (items q) ≠ 0 →
  ∃ h',
    Put_loop (stale ++ p :: rest) h q
    = Blocks (State h' (set_waiters q (Some rest)))
    ∧ h' !! p = Some (Sema (Some true) (S (response sm))).
Proof.
  intros Hall Hp Hr Hne. revert h q Hall Hp Hne.
  induction stale as [|p0 stale IH]; intros h q Hall Hp Hne; simpl.
  - rewrite Hp. unfold try_send, response_Add1. simpl. rewrite Hr. simpl.
    eexists. split; [reflexivity|]. by rewrite lookup_insert_eq.
  - destruct (Hall p0) as (sm0 & Hsm0 & [b Hb]); [by left|].
    rewrite Hsm0. unfold try_send, response_Add1. simpl. rewrite Hb. simpl.
    rewrite (proj2 (Z.eqb_neq _ 0)) by done.
    assert (p0 ≠ p) as Hne' by (intros ->; congruence).
    set (sm1 := {| ready := Some b; response := S (response sm0) |}).
    destruct (IH (<[p0 := sm1]> h) (set_waiters q (Some (stale ++ p :: rest))))
      as (h' & Hloop & Hh'); [|by rewrite lookup_insert_ne|done|].
    { intros p' Hp'. destruct (Hall p') as (sm' & Hsm' & Hr'); [by right|].
      destruct (decide (p0 = p')) as [<-|Hne''].
      - exists sm1. by rewrite lookup_insert_eq.
      - exists sm'. by rewrite lookup_insert_ne. }
    exists h'. by rewrite Hloop.
Qed.

(** X4: [Put] of at least one item walks the registry from the oldest
    waiter.  Past the waiters whose channel is full already, at the first
    waiter [p] whose channel is empty it raises the wait group of [p], sends
    on its channel and parks in [Wait] with the mutex held, the items
    appended and [p] and the waiters before it out of the registry: it
    returns only when the waiter answers. *)
Theorem Put_parks_at_live_waiter s (x : T) (its : list T)
    (stale : list loc) (p : loc) (rest : list loc) (sm : sema) :
  disposed (queue s) = false →
  lock (queue s) = false →
  elems (waiters (queue s)) = stale ++ p :: rest →
  all_signalled stale (heap s) →
  heap s !! p = Some sm →
  ready sm = None →
  ∃ h',
    Put (x :: its) s
    = Blocks
        (State h' {| waiters := Some rest;
                     items := Some (elems (items (queue s)) ++ x :: its);
                     lock := true; disposed := false |})
    ∧ h' !! p = Some (Sema (Some true) (S (response sm))).
Proof.
  intros Hd Hl Hw Hall Hp Hr. rewrite Put_enters by done. rewrite Hw.
  destruct (Put_loop_parks stale p rest (heap s)
              (set_items (set_lock (queue s) true)
                         (append (items (queue s)) (x :: its))) sm
              Hall Hp Hr) as (h' & -> & Hh').
  { simpl. rewrite length_app. simpl. lia. }
  exists h'. split; [|done].
  destruct s as [h [w its0 l d]]. simpl in *. by subst.
Qed.

(** ** Dispose and the waiters in the registry *)

Lemma Dispose_loop_spec (ws : list loc) (h h' : gmap loc sema) :
  Dispose_loop ws h = Some h' →
  (∀ p sm, h !! p = Some sm → is_Some (ready sm) →
     ∃ sm', h' !! p = Some sm' ∧ is_Some (ready sm'))
  ∧ (∀ p, p ∈ ws → ∃ sm', h' !! p = Some sm' ∧ is_Some (ready sm'))
  ∧ (∀ p, p ∉ ws → h' !! p = h !! p).
Proof.
  revert h. induction ws as [|w ws IH]; intros h; simpl.
  - intros [= <-]. split; [by eauto|]. split; [|done].
    intros p Hp. inversion Hp.
  - destruct (h !! w) as [sm|] eqn:Hw; [|done].
    set (sm1 := (try_send (response_Add1 sm)).1).
    assert (is_Some (ready sm1)) as Hsm1.
    { subst sm1. unfold try_send, response_Add1. simpl.
      destruct (ready sm) eqn:Hr; simpl; rewrite ?Hr; by eexists. }
    intros Hloop. destruct (IH _ Hloop) as (Hkeep & Hin & Hout).
    assert (∃ sm', h' !! w = Some sm' ∧ is_Some (ready sm')) as Hw'.
    { apply (Hkeep w sm1); [by rewrite lookup_insert_eq|done]. }
    split; [|split].
    + intros p sm0 Hp Hr. destruct (decide (w = p)) as [<-|Hne]; [done|].
      apply (Hkeep p sm0); [by rewrite lookup_insert_ne|done].
    + intros p Hp. apply elem_of_cons in Hp as [->|Hp]; [done|by apply Hin].
    + intros p Hp. rewrite Hout by (intros Hin'; apply Hp; by right).
      apply lookup_insert_ne. intros ->. apply Hp. by left.
Qed.

(** X5: [Dispose], called with the mutex free, leaves the channel of every
    registered waiter full, so that a [Poll] parked on it wakes, and does not
    touch the semaphores that are not in the registry. *)
Theorem Dispose_signals_waiters s :
  lock (queue s) = false →
  registry_ok s →
  ∃ h',
    Dispose s = Returns (items (queue s)) (disposed_state h')
    ∧ (∀ p, p ∈ elems (waiters (queue s)) →
         ∃ sm', h' !! p = Some sm' ∧ is_Some (ready sm'))
    ∧ (∀ p, p ∉ elems (waiters (queue s)) → h' !! p = heap s !! p).
Proof.
  intros Hl Hok.
  destruct (QueueSpec.Dispose_returns s Hl Hok) as (h' & Hloop & HD).
  exists h'. split; [done|].
  by destruct (Dispose_loop_spec _ _ _ Hloop) as (_ & Hin & Hout).
Qed.

End Items.

(** ** The properties at work on queues of integers *)

Lemma run_io_balance_witness :
  let cs := [CPut [1; 2; 3]; CGet 2; CPut [4];
             CTakeUntil (Some (λ x, x <? 4)); CDispose; CPut [5]] in
  run_io 0 cs new_queue = Returns (IO [1; 2; 3; 4] [1; 2; 3; 4])
                                (disposed_state ∅)
  ∧ elems (items (queue (new_queue : state Z))) ++ [1; 2; 3; 4]
    = [1; 2; 3; 4] ++ elems (items (queue (disposed_state ∅ : state Z))).
Proof.
  intros cs.
  assert (run_io 0 cs new_queue
          = Returns (IO [1; 2; 3; 4] [1; 2; 3; 4]) (disposed_state ∅))
    as Hrun by reflexivity.
  split; [exact Hrun|].
  exact (proj1 (run_io_balance 0 cs new_queue _ _ Hrun)).
Defined.

Lemma Poll_alone_witness :
  Poll 1 50 (new_queue : state Z)
  = Returns (None, Some ErrTimeout)
      (State (<[fresh (dom (∅ : gmap loc sema)) := Sema (Some true) 0]> ∅)
             {| waiters := Some []; items := Some []; lock := false;
                disposed := false |}).
Proof.
  destruct (Poll_alone (new_queue : state Z) 1 50 eq_refl eq_refl eq_refl)
    as (_ & Hpos & _).
  - intros p Hp. inversion Hp.
  - lia.
  - apply Hpos. lia.
Defined.

(** a queue with one waiter that has timed out and claimed its semaphore *)
Lemma Put_drops_signalled_witness :
  ∃ h' w',
    Put [7; 8]
      (State {[0%nat := Sema (Some true) 0]}
         {| waiters := Some [0%nat]; items := Some []; lock := false;
            disposed := false |})
    = Returns None
        (State h' {| waiters := w'; items := Some [7; 8]; lock := false;
                     disposed := false |})
    ∧ elems w' = [].
Proof.
  destruct (Put_drops_signalled
              (State {[0%nat := Sema (Some true) 0]}
                 {| waiters := Some [0%nat]; items := Some []; lock := false;
                    disposed := false |}) 7 [8] eq_refl eq_refl)
    as (h' & w' & HPut & Hw' & _).
  - intros p Hp. apply list_elem_of_singleton in Hp as ->.
    exists (Sema (Some true) 0). split; [reflexivity|by eexists].
  - by exists h', w'.
Defined.

(** a queue with one waiter parked in [Get] *)
Lemma Put_parks_at_live_waiter_witness :
  ∃ h',
    Put [7; 8]
      (State {[0%nat := newSema]}
         {| waiters := Some [0%nat]; items := Some []; lock := false;
            disposed := false |})
    = Blocks
        (State h' {| waiters := Some []; items := Some [7; 8]; lock := true;
                     disposed := false |})
    ∧ h' !! 0%nat = Some (Sema (Some true) 1).
Proof.
  exact (Put_parks_at_live_waiter
           (State {[0%nat := newSema]}
              {| waiters := Some [0%nat]; items := Some []; lock := false;
                 disposed := false |}) 7 [8] [] 0%nat [] newSema
           eq_refl eq_refl eq_refl
           ltac:(intros p Hp; inversion Hp) eq_refl eq_refl).
Defined.

Lemma Dispose_signals_waiters_witness :
  ∃ h',
    Dispose
      (State {[0%nat := newSema]}
         {| waiters := Some [0%nat]; items := Some [1]; lock := false;
            disposed := false |})
    = Returns (Some [1]) (disposed_state h')
    ∧ ∃ sm', h' !! 0%nat = Some sm' ∧ is_Some (ready sm').
Proof.
  destruct (Dispose_signals_waiters
              (State {[0%nat := newSema]}
                 {| waiters := Some [0%nat]; items := Some [1];
                    lock := false; disposed := false |}) eq_refl)
    as (h' & HD & Hin & _).
  - intros p Hp. apply list_elem_of_singleton in Hp as ->. by eexists.
  - exists h'. split; [exact HD|]. apply Hin. by left.
Defined.

(** X6: on a queue that holds items, called with the mutex free,
    [ExecuteInParallel] applies [fn] to every buffered item exactly once,
    whatever the number of CPUs, then disposes the queue: the waiters are
    signalled as [Dispose] signals them, and the queue is left disposed with
    the mutex free. *)
Theorem ExecuteInParallel_each_item_once {I : Type} (int0 : I) (NumCPU : Z)
    (s : state I) :
  lock (queue s) = false →
  registry_ok s →
  elems (items (queue s)) ≠ [] →
  ∃ h',
    Dispose_loop (elems (waiters (queue s))) (heap s) = Some h'
    ∧ ExecuteInParallel int0 NumCPU (Some s)
      = Returns (elems (items (queue s))) (Some (disposed_state h')).
Proof.
  intros Hl Hok Hne. unfold ExecuteInParallel. rewrite Hl.
  cbn [queue heap set_lock items lock].
  destruct (items (queue s)) as [l|] eqn:Hits; [|done].
  simpl in Hne. cbn [len elems default].
  rewrite (proj2 (Z.eqb_neq _ 0)) by (destruct l; simpl length; [done|lia]).
  set (numCPU := if 1 <? NumCPU then NumCPU - 1 else 1).
  assert (∃ w : nat, numCPU = Z.of_nat w ∧ (1 ≤ w)%nat) as (w & -> & Hw).
  { subst numCPU. destruct (Z.ltb_spec 1 NumCPU).
    - exists (Z.to_nat (NumCPU - 1)). lia.
    - exists 1%nat. lia. }
  assert (run_workers int0 (Z.to_nat (Z.of_nat (length l) + Z.of_nat w))
            (Z.of_nat (length l)) (Pool (-1) (Z.of_nat w) l [])
          = Returns tt (Pool (Z.of_nat (length l) - 1 + Z.of_nat w) 0
                             (replicate (length l) int0) l)) as Hrun.
  { apply (QueueSpec.run_workers_claim int0 l [] w _ [] Hw). lia. }
  unfold id. rewrite Hrun.
  destruct (QueueSpec.Dispose_returns
    (State (heap s)
       (set_lock (set_items (set_lock (queue s) true)
                            (Some (replicate (length l) int0))) false)))
    as (h' & Hloop & HD); [done|by destruct s as [h []]|].
  cbn [slots calls]. rewrite HD. exists h'. split; [|done].
  by destruct s as [h []].
Qed.

Lemma ExecuteInParallel_each_item_once_witness :
  ∃ h',
    Dispose_loop [] (∅ : gmap loc sema) = Some h'
    ∧ ExecuteInParallel 0 4
        (Some (State ∅ {| waiters := None; items := Some [1; 2; 3];
                          lock := false; disposed := false |}))
      = Returns [1; 2; 3] (Some (disposed_state h')).
Proof.
  apply (ExecuteInParallel_each_item_once 0 4
           (State ∅ {| waiters := None; items := Some [1; 2; 3];
                       lock := false; disposed := false |}) eq_refl).
  - intros p Hp. inversion Hp.
  - discriminate.
Defined.

End QueueExtra.

(** * Further properties of package futures *)

Module FuturesExtra.

Import Futures.

Section Selectable.

Context {T E : Type}.
Variable zero : T.
Variable ErrFutureCanceled : E.

Implicit Types (s : state T E) (v : T) (e : option E).

(** ** The channel of a future *)

(** X7: on a future that is not fulfilled, [WaitChan] returns an open
    channel, and the same channel when it is called again; [GetResult] parks
    on that channel.  [Fill] closes it, so that every goroutine waiting on it
    wakes, and from then on [WaitChan] returns the package's closed channel
    and [GetResult] returns the value and the error filled in. *)
Theorem WaitChan_closed_by_Fill s v e :
  between_calls s →
  filled (fut s) = 0 →
  ∃ ch s1 s2,
    WaitChan s = Returns ch s1
    ∧ is_closed (chans s1) ch = false
    ∧ WaitChan s1 = Returns ch s1
    ∧ GetResult s = Blocks s1
    ∧ Fill v e s1 = Returns e s2
    ∧ is_closed (chans s2) ch = true
    ∧ WaitChan s2 = Returns closed s2
    ∧ GetResult s2 = Returns (v, e) s2.
Proof.
  intros [Hm Hw] Hf. specialize (Hw Hf).
  destruct s as [cs [m0 v0 e0 w0 f0]]. simpl in *. subst m0 f0.
  destruct w0 as [[|id]|]; [done| |].
  - exists (made id), (State cs (mkSelectable false v0 e0 (Some (made id)) 0)).
    eexists. unfold WaitChan, GetResult, wchan, Fill. simpl. rewrite Hw. simpl.
    repeat split; try reflexivity. simpl. by rewrite lookup_insert_eq.
  - set (id := fresh (dom cs)).
    assert (cs !! id = None) as Hid by (apply not_elem_of_dom, is_fresh).
    exists (made id),
      (State (<[id := false]> cs)
             (mkSelectable false v0 e0 (Some (made id)) 0)).
    eexists. unfold WaitChan, GetResult, wchan, Fill. simpl. fold id.
    rewrite !lookup_insert_eq. simpl.
    repeat split; try reflexivity. simpl. by rewrite lookup_insert_eq.
Qed.

(** ** No call panics *)

Lemma do_call_safe s (c : call T E) :
  between_calls s →
  match do_call zero ErrFutureCanceled c s with
  | Returns _ s' => between_calls s'
  | Blocks s' => c = CGetResult ∧ filled (fut s') = 0
  | Panics => False
  end.
Proof.
  intros Hok.
  destruct (do_call zero ErrFutureCanceled c s) as [r s'|s'|] eqn:Hcall.
  - destruct r. by apply (FuturesSpec.between_calls_preserved zero
                            ErrFutureCanceled s c s').
  - destruct (Z.eq_dec (filled (fut s)) 0) as [Hf|Hf].
    + destruct c as [v e|v|e| | |]; cbn [do_call] in Hcall.
      * by destruct (FuturesSpec.Fill_unfulfilled s v e Hok Hf)
          as (s1 & HF & _); rewrite HF in Hcall.
      * unfold SetValue in Hcall.
        by destruct (FuturesSpec.Fill_unfulfilled s v None Hok Hf)
          as (s1 & HF & _); rewrite HF in Hcall.
      * unfold SetError in Hcall.
        by destruct (FuturesSpec.Fill_unfulfilled s zero e Hok Hf)
          as (s1 & HF & _); rewrite HF in Hcall.
      * unfold Cancel, SetError in Hcall.
        by destruct (FuturesSpec.Fill_unfulfilled s zero
                       (Some ErrFutureCanceled) Hok Hf)
          as (s1 & HF & _); rewrite HF in Hcall.
      * split; [done|]. unfold GetResult, wchan in Hcall.
        rewrite Hf in Hcall. simpl in Hcall.
        destruct Hok as [Hm _]. rewrite Hm in Hcall.
        destruct (wait (fut s)) as [ch|]; simpl in Hcall.
        -- destruct (is_closed (chans s) ch); [done|].
           by injection Hcall as <-.
        -- rewrite lookup_insert_eq in Hcall. simpl in Hcall.
           by injection Hcall as <-.
      * unfold WaitChan, wchan in Hcall. rewrite Hf in Hcall.
        simpl in Hcall. destruct Hok as [Hm _]. rewrite Hm in Hcall.
        by destruct (wait (fut s)).
    + assert (m (fut s) = false) as Hm by apply Hok.
      destruct c as [v e|v|e| | |]; cbn [do_call] in Hcall.
      * by rewrite FuturesSpec.Fill_fulfilled in Hcall.
      * unfold SetValue in Hcall.
        by rewrite FuturesSpec.Fill_fulfilled in Hcall.
      * unfold SetError in Hcall.
        by rewrite FuturesSpec.Fill_fulfilled in Hcall.
      * unfold Cancel, SetError in Hcall.
        by rewrite FuturesSpec.Fill_fulfilled in Hcall.
      * by rewrite FuturesSpec.GetResult_fulfilled in Hcall.
      * unfold WaitChan, wchan in Hcall. rewrite Hm in Hcall.
        destruct (filled (fut s) =? 1); [done|].
        by destruct (wait (fut s)).
  - destruct (Z.eq_dec (filled (fut s)) 0) as [Hf|Hf].
    + destruct c as [v e|v|e| | |]; cbn [do_call] in Hcall.
      * by destruct (FuturesSpec.Fill_unfulfilled s v e Hok Hf)
          as (s1 & HF & _); rewrite HF in Hcall.
      * unfold SetValue in Hcall.
        by destruct (FuturesSpec.Fill_unfulfilled s v None Hok Hf)
          as (s1 & HF & _); rewrite HF in Hcall.
      * unfold SetError in Hcall.
        by destruct (FuturesSpec.Fill_unfulfilled s zero e Hok Hf)
          as (s1 & HF & _); rewrite HF in Hcall.
      * unfold Cancel, SetError in Hcall.
        by destruct (FuturesSpec.Fill_unfulfilled s zero
                       (Some ErrFutureCanceled) Hok Hf)
          as (s1 & HF & _); rewrite HF in Hcall.
      * unfold GetResult, wchan in Hcall. rewrite Hf in Hcall.
        simpl in Hcall. destruct Hok as [Hm _]. rewrite Hm in Hcall.
        destruct (wait (fut s)) as [ch|]; simpl in Hcall.
        -- by destruct (is_closed (chans s) ch).
        -- by rewrite lookup_insert_eq in Hcall.
      * unfold WaitChan, wchan in Hcall. rewrite Hf in Hcall.
        simpl in Hcall. destruct Hok as [Hm _]. rewrite Hm in Hcall.
        by destruct (wait (fut s)).
    + assert (m (fut s) = false) as Hm by apply Hok.
      destruct c as [v e|v|e| | |]; cbn [do_call] in Hcall.
      * by rewrite FuturesSpec.Fill_fulfilled in Hcall.
      * unfold SetValue in Hcall.
        by rewrite FuturesSpec.Fill_fulfilled in Hcall.
      * unfold SetError in Hcall.
        by rewrite FuturesSpec.Fill_fulfilled in Hcall.
      * unfold Cancel, SetError in Hcall.
        by rewrite FuturesSpec.Fill_fulfilled in Hcall.
      * by rewrite FuturesSpec.GetResult_fulfilled in Hcall.
      * unfold WaitChan, wchan in Hcall. rewrite Hm in Hcall.
        destruct (filled (fut s) =? 1); [done|].
        by destruct (wait (fut s)).
Qed.

(** X8: whatever calls one goroutine makes on a future that started as
    [NewSelectable] or is between calls, no call panics (no channel is closed
    twice), and the only call that can park is a [GetResult] on a future that
    is not fulfilled. *)
Theorem future_calls_never_panic s (cs : list (call T E)) :
  between_calls s →
  run zero ErrFutureCanceled cs s ≠ Panics
  ∧ (∀ s', run zero ErrFutureCanceled cs s = Blocks s' →
       filled (fut s') = 0 ∧ CGetResult ∈ cs)
  ∧ (∀ s', run zero ErrFutureCanceled cs s = Returns tt s' →
       between_calls s').
Proof.
  revert s. induction cs as [|c cs IH]; intros s Hok; cbn [run].
  - split; [done|]. split; [done|]. by intros s' [= <-].
  - pose proof (do_call_safe s c Hok) as Hsafe.
    destruct (do_call zero ErrFutureCanceled c s) as [r s1|s1|];
      [|destruct Hsafe as [-> Hf]|done].
    + destruct (IH s1 Hsafe) as (Hnp & Hb & Hr).
      split; [done|]. split; [|done].
      intros s' Hs'. destruct (Hb s' Hs') as [Hf Hin].
      split; [done|by right].
    + split; [done|]. split; [|done].
      intros s' [= <-]. split; [done|by left].
Qed.

(** ** Whoever comes first *)

(** X9: on a future that is not fulfilled, the first of [SetValue],
    [SetError] and [Cancel] decides what [GetResult] returns: the value with
    a nil error, the zero value with the error, the zero value with
    [ErrFutureCanceled].  After [Cancel] a [SetValue] changes nothing and
    returns [ErrFutureCanceled]. *)
Theorem first_setter_decides s :
  between_calls s →
  filled (fut s) = 0 →
  (∀ v, ∃ s1, SetValue v s = Returns None s1
              ∧ GetResult s1 = Returns (v, None) s1)
  ∧ (∀ e, ∃ s1, SetError zero e s = Returns tt s1
                ∧ GetResult s1 = Returns (zero, e) s1)
  ∧ (∃ s1, Cancel zero ErrFutureCanceled s = Returns tt s1
           ∧ GetResult s1 = Returns (zero, Some ErrFutureCanceled) s1
           ∧ ∀ v, SetValue v s1 = Returns (Some ErrFutureCanceled) s1).
Proof.
  intros Hok Hf.
  assert (∀ v e, ∃ s1, Fill v e s = Returns e s1
                       ∧ GetResult s1 = Returns (v, e) s1
                       ∧ ∀ v', Fill v' None s1 = Returns e s1) as HF.
  { intros v e.
    destruct (FuturesSpec.Fill_unfulfilled s v e Hok Hf)
      as (s1 & HF & Hv & He & Hf1 & Hm1 & _).
    exists s1. split; [done|]. split.
    - rewrite FuturesSpec.GetResult_fulfilled by lia. by rewrite Hv, He.
    - intros v'. rewrite FuturesSpec.Fill_fulfilled by (done || lia).
      by rewrite He. }
  split; [|split].
  - intros v. destruct (HF v None) as (s1 & HFill & HG & _). by exists s1.
  - intros e. destruct (HF zero e) as (s1 & HFill & HG & _).
    exists s1. unfold SetError. by rewrite HFill.
  - destruct (HF zero (Some ErrFutureCanceled)) as (s1 & HFill & HG & HS).
    exists s1. unfold Cancel, SetError. by rewrite HFill.
Qed.

End Selectable.

Lemma WaitChan_closed_by_Fill_witness :
  ∃ ch (s1 s2 : state Z nat),
    WaitChan (NewSelectable 0) = Returns ch s1
    ∧ is_closed (chans s1) ch = false
    ∧ Fill 7 None s1 = Returns None s2
    ∧ is_closed (chans s2) ch = true.
Proof.
  destruct (WaitChan_closed_by_Fill (NewSelectable 0 : state Z nat) 7 None)
    as (ch & s1 & s2 & HW & Hopen & _ & _ & HF & Hclosed & _).
  - by split.
  - reflexivity.
  - by exists ch, s1, s2.
Defined.

Lemma future_calls_never_panic_witness :
  run 0 1%nat [CWaitChan; CCancel; CSetValue 7; CGetResult]
      (NewSelectable 0 : state Z nat)
  ≠ Panics.
Proof.
  apply (future_calls_never_panic 0 1%nat (NewSelectable 0)
           [CWaitChan; CCancel; CSetValue 7; CGetResult]).
  by split.
Defined.

Lemma first_setter_decides_witness :
  ∃ s1 : state Z nat,
    Cancel 0 1%nat (NewSelectable 0) = Returns tt s1
    ∧ GetResult s1 = Returns (0, Some 1%nat) s1
    ∧ SetValue 7 s1 = Returns (Some 1%nat) s1.
Proof.
  destruct (first_setter_decides 0 1%nat (NewSelectable 0 : state Z nat))
    as (_ & _ & s1 & HC & HG & HS).
  - by split.
  - reflexivity.
  - exists s1. split; [exact HC|]. split; [exact HG|exact (HS 7)].
Defined.

End FuturesExtra.

(** * Properties of a waiting Poll against a concurrent Dispose *)

Module DisposeRaceSpec.

Import Queue DisposeRace.

Section DisposeRace.

Context {T : Type} `{!Alloc T}.
Variable tok : loc.
Variables number timeout : Z.

(** the idle queue the consumer found: not disposed, mutex free, buffer
    empty, nobody waiting *)
Variable s0 : state T.
Hypothesis s0_not_disposed : disposed (queue s0) = false.
Hypothesis s0_unlocked : lock (queue s0) = false.
Hypothesis s0_empty : len (items (queue s0)) = 0.
Hypothesis s0_no_waiters : elems (waiters (queue s0)) = [].

Abbreviation config := (config T).
Abbreviation step := (step tok number timeout).
Abbreviation exec := (exec tok number timeout).
Abbreviation its0 := (items (queue s0)).
Abbreviation shape := (shape tok its0).
Abbreviation invariant := (invariant tok its0).

(** ** Every run is short *)

Lemma dispose_step_rank (a : action) (c c' : config) :
  step a c = Some c' → (rank c' < rank c)%nat.
Proof.
  destruct c as [[h [w its l d]] pc pd]. unfold rank.
  destruct a; simpl.
  - unfold timer_step, Race.timer_step; simpl. destruct pc; try done.
    destruct (0 <? timeout); [|done]. intros [= <-]. simpl. lia.
  - unfold consumer_step, Race.consumer_step; simpl. destruct pc; try done.
    + destruct (h !! tok) as [[[b|] n]|]; try done.
      intros [= <-]. simpl. lia.
    + destruct d; intros [= <-]; simpl; lia.
    + destruct (items_get its number) as [[]|]; intros [= <-]; simpl; lia.
    + destruct (h !! tok ≫= response_Done); intros [= <-]; simpl; lia.
    + destruct (h !! tok) as [sm|]; [|intros [= <-]; simpl; lia].
      destruct (try_send sm) as [sm' []]; intros [= <-]; simpl; lia.
    + destruct l; [done|]. intros [= <-]. simpl. lia.
    + intros [= <-]. simpl.
      pose proof (RaceSpec.waiters_remove_length tok w).
      destruct pd; simpl; lia.
    + intros [= <-]. simpl. lia.
    + destruct (h !! tok ≫= response_Done); intros [= <-]; simpl; lia.
  - unfold disposer_step; simpl.
    destruct pd as [| | |[|p ws]|p ws| |its'|its'|its'|its'|]; try done.
    + destruct l; [done|]. intros [= <-]. simpl. lia.
    + intros [= <-]. simpl. lia.
    + intros [= <-]. simpl. lia.
    + intros [= <-]. simpl. lia.
    + destruct (h !! p); intros [= <-]; simpl; lia.
    + destruct (h !! p); intros [= <-]; simpl; lia.
    + intros [= <-]. simpl. lia.
    + intros [= <-]. simpl. lia.
    + intros [= <-]. simpl. lia.
    + intros [= <-]. simpl. lia.
Qed.

Lemma dispose_exec_rank (sched : list action) (c c' : config) :
  exec sched c = Some c' → (length sched + rank c' ≤ rank c)%nat.
Proof.
  revert c. induction sched as [|a sched IH]; intros c; simpl.
  - intros [= <-]. lia.
  - destruct (step a c) as [c1|] eqn:Hstep; [|done].
    intros Hexec. apply IH in Hexec. apply dispose_step_rank in Hstep. lia.
Qed.

(** ** The configurations of a run *)

(** Case analysis on the shape of a configuration, down to the places of
    the two goroutines. *)
Ltac shape_cases Hshape :=
  inversion Hshape; subst;
  repeat match goal with
         | H : Race.waiting _ |- _ => inversion H; clear H; subst
         | H : before_range _ _ _ |- _ => inversion H; clear H; subst
         | H : after_range _ _ _ _ _ _ |- _ => inversion H; clear H; subst
         end.

Lemma dispose_start_invariant : invariant (start tok s0).
Proof.
  exists None, O. simpl. rewrite lookup_insert_eq. split; [done|].
  unfold waiters_put, append.
  rewrite s0_no_waiters, s0_unlocked, s0_not_disposed. simpl.
  constructor; constructor.
Qed.

Lemma dispose_step_invariant (a : action) (c c' : config) :
  invariant c → step a c = Some c' → invariant c'.
Proof.
  destruct c as [[h [w its l d]] pc pd].
  intros (r & n & Hlk & Hshape). simpl in Hlk, Hshape.
  shape_cases Hshape;
    destruct a; simpl;
    unfold timer_step, consumer_step, disposer_step, Race.timer_step,
      Race.consumer_step, Race.with_sema, Race.with_queue;
    simpl;
    rewrite ?Hlk, ?RaceSpec.remove_tok;
    simpl;
    try (destruct (0 <? timeout)); simpl;
    try (intros Hnone; discriminate Hnone);
    solve [ intros [= <-];
            eexists _, _; simpl;
            rewrite ?lookup_insert_eq;
            (split; [first [done | exact Hlk]|]);
            by repeat constructor ].
Qed.

Lemma dispose_exec_invariant (sched : list action) (c c' : config) :
  invariant c → exec sched c = Some c' → invariant c'.
Proof.
  revert c. induction sched as [|a sched IH]; intros c Hinv; simpl.
  - by intros [= <-].
  - destruct (step a c) as [c1|] eqn:Hstep; [|done].
    apply IH. by apply (dispose_step_invariant a c).
Qed.

(** ** What the invariant gives *)

Lemma dispose_invariant_progress (c : config) :
  invariant c → finished c = false → ∃ a c', step a c = Some c'.
Proof.
  destruct c as [[h [w its l d]] pc pd].
  intros (r & n & Hlk & Hshape). simpl in Hlk, Hshape.
  shape_cases Hshape;
    simpl; try done; intros _;
    first
      [ solve [ exists DisposerStep; simpl; unfold disposer_step; simpl;
                rewrite ?Hlk; simpl; by eauto ]
      | solve [ exists ConsumerStep; simpl;
                unfold consumer_step, Race.consumer_step; simpl;
                rewrite ?Hlk; simpl; by eauto ] ].
Qed.

Lemma dispose_invariant_result (c : config) (its : slice T) (e : option error) :
  invariant c →
  cons c = Race.PReturned its e →
  its = None ∧ (e = Some ErrDisposed ∨ e = Some ErrTimeout).
Proof.
  destruct c as [[h [w its' l d]] pc pd].
  intros (r & n & Hlk & Hshape) Hpc. simpl in *. subst pc.
  shape_cases Hshape; by auto.
Qed.

Lemma dispose_invariant_disposer (c : config) :
  invariant c →
  cons c ≠ Race.PPanicked
  ∧ disp c ≠ DPanicked
  ∧ (∀ its, disp c = DReturned its →
       its = its0
       ∧ disposed (queue (shared c)) = true
       ∧ items (queue (shared c)) = None
       ∧ waiters (queue (shared c)) = None)
  ∧ (finished c = true → lock (queue (shared c)) = false).
Proof.
  destruct c as [[h [w its' l d]] pc pd].
  intros (r & n & Hlk & Hshape). simpl in *.
  shape_cases Hshape; simpl; repeat split; try done; congruence.
Qed.

(** Without a positive timeout the consumer never takes the timer case. *)
Lemma dispose_step_not_timed_out (a : action) (c c' : config) :
  timeout ≤ 0 →
  step a c = Some c' →
  timed_out (cons c) = false →
  timed_out (cons c') = false.
Proof.
  intros Ht. destruct c as [[h [w its l d]] pc pd].
  destruct a; simpl.
  - unfold timer_step, Race.timer_step; simpl. destruct pc; try done.
    by rewrite (proj2 (Z.ltb_ge _ _)) by lia.
  - unfold consumer_step, Race.consumer_step; simpl. destruct pc; try done.
    + destruct (h !! tok) as [[[b|] n]|]; try done. by intros [= <-].
    + destruct d; by intros [= <-].
    + destruct (items_get its number) as [[]|]; by intros [= <-].
    + destruct (h !! tok ≫= response_Done); by intros [= <-].
  - unfold disposer_step; simpl.
    destruct pd as [| | |[|p ws]|p ws| |its'|its'|its'|its'|]; try done;
      try (by intros [= <-]).
    + destruct l; [done|]. by intros [= <-].
    + destruct (h !! p); by intros [= <-].
    + destruct (h !! p); by intros [= <-].
Qed.

Lemma dispose_exec_not_timed_out (sched : list action) (c c' : config) :
  timeout ≤ 0 →
  exec sched c = Some c' →
  timed_out (cons c) = false →
  timed_out (cons c') = false.
Proof.
  intros Ht. revert c. induction sched as [|a sched IH]; intros c; simpl.
  - by intros [= <-].
  - destruct (step a c) as [c1|] eqn:Hstep; [|done].
    intros Hexec Hc. apply (IH c1 Hexec).
    by apply (dispose_step_not_timed_out a c).
Qed.

(** X10: in every interleaving of a [Poll] waiting on an empty buffer and a
    concurrent [Dispose], the consumer never gets items: it returns nil with
    the disposed error, or nil with the timeout error, and the second only
    if its timeout is positive.  Nobody panics; as long as one of the two has
    not returned some step is enabled, and no run has more than 15 steps, so
    that the consumer is not left waiting.  [Dispose] returns the buffer it
    found and leaves the queue disposed with a nil buffer and a nil registry,
    and when both have returned the mutex is free. *)
Theorem Dispose_releases_waiter (sched : list action) (c : config) :
  exec sched (start tok s0) = Some c →
  (∀ its e, cons c = Race.PReturned its e →
     its = None
     ∧ (e = Some ErrDisposed ∨ e = Some ErrTimeout ∧ 0 < timeout))
  ∧ cons c ≠ Race.PPanicked
  ∧ disp c ≠ DPanicked
  ∧ (finished c = false → ∃ a c', step a c = Some c')
  ∧ (length sched ≤ 15)%nat
  ∧ (∀ its, disp c = DReturned its →
       its = its0
       ∧ disposed (queue (shared c)) = true
       ∧ items (queue (shared c)) = None
       ∧ waiters (queue (shared c)) = None)
  ∧ (finished c = true → lock (queue (shared c)) = false).
Proof.
  intros Hexec.
  assert (invariant c) as Hinv
    by exact (dispose_exec_invariant sched _ c dispose_start_invariant Hexec).
  destruct (dispose_invariant_disposer c Hinv) as (Hpc & Hpd & Hret & Hfin).
  split.
  { intros its e Hc.
    destruct (dispose_invariant_result c its e Hinv Hc) as [-> [->| ->]];
      split; try done; [by left|].
    right. split; [done|].
    destruct (Z.lt_ge_cases 0 timeout) as [Hlt|Hge]; [done|].
    pose proof (dispose_exec_not_timed_out sched _ c Hge Hexec eq_refl) as Hno.
    rewrite Hc in Hno. done. }
  do 2 (split; [done|]).
  split; [by apply dispose_invariant_progress|].
  split; [|by split].
  apply dispose_exec_rank in Hexec. unfold rank in Hexec at 2. simpl in Hexec.
  unfold waiters_put, append in Hexec. rewrite s0_no_waiters in Hexec.
  simpl in Hexec. lia.
Qed.

End DisposeRace.

(** The consumer waits without a timeout; [Dispose] runs to its end and the
    consumer then wakes and returns the disposed error. *)
Lemma Dispose_releases_waiter_witness :
  let sched := [DisposerStep; DisposerStep; DisposerStep; DisposerStep;
                DisposerStep; DisposerStep; DisposerStep; DisposerStep;
                DisposerStep; DisposerStep; ConsumerStep; ConsumerStep] in
  let c := Config (State {[0%nat := Sema None 1]}
                     {| waiters := None; items := None; lock := false;
                        disposed := true |})
                  (Race.PReturned None (Some ErrDisposed))
                  (DReturned (Some [])) in
  exec 0%nat 1 0 sched (start 0%nat (new_queue : state Z)) = Some c
  ∧ (length sched ≤ 15)%nat
  ∧ lock (queue (shared c)) = false.
Proof.
  intros sched c.
  assert (exec 0%nat 1 0 sched (start 0%nat new_queue) = Some c)
    as Hexec by (vm_compute; reflexivity).
  destruct (Dispose_releases_waiter 0%nat 1 0 new_queue
              eq_refl eq_refl eq_refl sched c Hexec)
    as (_ & _ & _ & _ & Hlen & _ & Hfin).
  split; [exact Hexec|]. split; [exact Hlen|]. exact (Hfin eq_refl).
Defined.

End DisposeRaceSpec.

(** * Further properties of a waiting Poll against a concurrent Put *)

Module RaceExtra.

Import Queue Race.

Section Race.

Context {T : Type} `{!Alloc T}.
Variable tok : loc.
Variables number timeout : Z.
Variable put_items : list T.

Variable s0 : state T.
Hypothesis s0_not_disposed : disposed (queue s0) = false.
Hypothesis s0_unlocked : lock (queue s0) = false.
Hypothesis s0_empty : len (items (queue s0)) = 0.
Hypothesis s0_no_waiters : elems (waiters (queue s0)) = [].
Hypothesis put_some : put_items ≠ [].
(** [Poll] came to wait, and [make] accepts the capacity it will ask for *)
Hypothesis number_fits : 1 ≤ number ≤ max_cap T.

Abbreviation config := (config T).
Abbreviation step := (step tok number timeout put_items).
Abbreviation exec := (exec tok number timeout put_items).
Abbreviation its0 := (items (queue s0)).
Abbreviation invariant := (invariant tok number put_items its0).
Abbreviation timed_out := DisposeRace.timed_out.

Ltac shape_cases Hshape :=
  inversion Hshape; subst;
  repeat match goal with
         | H : waiting _ |- _ => inversion H; clear H; subst
         | H : received _ |- _ => inversion H; clear H; subst
         | H : released _ _ _ |- _ => inversion H; clear H; subst
         | H : through _ _ |- _ => inversion H; clear H; subst
         | H : unserved _ _ _ _ _ |- _ => inversion H; clear H; subst
         | H : before_pop _ _ _ _ _ |- _ => inversion H; clear H; subst
         end.

Lemma reachable_invariant (sched : list action) (c : config) :
  exec sched (start tok s0) = Some c → invariant c.
Proof.
  apply (RaceSpec.exec_invariant tok number timeout put_items s0 put_some
           number_fits).
  by apply RaceSpec.start_invariant.
Qed.

(** ** Get loses no wakeup *)

(** Without a positive timeout the consumer never takes the timer case. *)
Lemma race_step_not_timed_out (a : action) (c c' : config) :
  timeout ≤ 0 →
  step a c = Some c' →
  timed_out (cons c) = false →
  timed_out (cons c') = false.
Proof.
  intros Ht. destruct c as [[h [w its l d]] pc pq lg].
  destruct a; simpl.
  - unfold timer_step; simpl. destruct pc; try done.
    by rewrite (proj2 (Z.ltb_ge _ _)) by lia.
  - unfold consumer_step; simpl. destruct pc; try done.
    + destruct (h !! tok) as [[[b|] n]|]; try done. by intros [= <-].
    + destruct d; by intros [= <-].
    + destruct (items_get its number) as [[]|]; by intros [= <-].
    + destruct (h !! tok ≫= response_Done); by intros [= <-].
  - unfold producer_step; simpl.
    destruct pq as [| | | |p|p|p| | |e|]; try done; try (by intros [= <-]).
    + destruct (Z.of_nat (length put_items) =? 0); [by intros [= <-]|].
      destruct l; [done|]. by intros [= <-].
    + destruct d; by intros [= <-].
    + destruct w as [[|p w]|]; by intros [= <-].
    + destruct (h !! p); by intros [= <-].
    + destruct (h !! p) as [sm|]; [|by intros [= <-]].
      destruct (try_send sm) as [sm' []]; by intros [= <-].
    + destruct (h !! p) as [sm|]; [|by intros [= <-]].
      destruct (Nat.eqb (response sm) 0); [|done]. by intros [= <-].
    + destruct (len its =? 0); by intros [= <-].
Qed.

Lemma race_exec_not_timed_out (sched : list action) (c c' : config) :
  timeout ≤ 0 →
  exec sched c = Some c' →
  timed_out (cons c) = false →
  timed_out (cons c') = false.
Proof.
  intros Ht. revert c. induction sched as [|a sched IH]; intros c; simpl.
  - by intros [= <-].
  - destruct (step a c) as [c1|] eqn:Hstep; [|done].
    intros Hexec Hc. apply (IH c1 Hexec).
    by apply (race_step_not_timed_out a c).
Qed.

(** X11: a [Get], or a [Poll] without a positive timeout, that waits on an
    empty buffer for a number of items that [make] accepts as a capacity,
    while a [Put] of at least one item runs: every run that can
    go no further has handed the consumer the first [number] items put, with
    a nil error; the producer has returned nil, the other items are in the
    buffer, the registry is empty and the mutex is free. *)
Theorem Get_loses_no_wakeup (sched : list action) (c : config) :
  timeout ≤ 0 →
  exec sched (start tok s0) = Some c →
  (∀ a, step a c = None) →
  cons c = PReturned (Some (take (Z.to_nat number) put_items)) None
  ∧ prod c = QReturned None
  ∧ items (queue (shared c)) = Some (drop (Z.to_nat number) put_items)
  ∧ waiters (queue (shared c)) = Some []
  ∧ lock (queue (shared c)) = false
  ∧ disposed (queue (shared c)) = false.
Proof.
  intros Ht Hexec Hstuck.
  pose proof (reachable_invariant sched c Hexec) as Hinv.
  assert (finished c = true) as Hfin.
  { destruct (finished c) eqn:Hf; [done|].
    destruct (RaceSpec.invariant_progress tok number timeout put_items s0
                put_some c Hinv Hf) as (a & c' & Hstep).
    by rewrite Hstuck in Hstep. }
  pose proof (race_exec_not_timed_out sched _ c Ht Hexec eq_refl) as Hno.
  destruct c as [[h [w its l d]] pc pq lg].
  destruct Hinv as (r & n & Hlk & Hd & Hshape). simpl in *.
  shape_cases Hshape; try done.
  rewrite (RaceSpec.taken_spec number put_items s0) by done.
  by rewrite (RaceSpec.left_spec number put_items s0) by done.
Qed.

(** ** The items of a hand-off that timed out *)

(** X12: when the consumer has returned the timeout error and the producer
    has returned, the items put are all in the buffer, and the next [Poll]
    or [Get] for [n >= 1] items, [n] a capacity that [make] accepts,
    returns the first [n] of them at once. *)
Theorem items_survive_timeout (sched : list action) (c : config)
    (its : slice T) (n t : Z) :
  exec sched (start tok s0) = Some c →
  finished c = true →
  cons c = PReturned its (Some ErrTimeout) →
  1 ≤ n ≤ max_cap T →
  items (queue (shared c)) = Some put_items
  ∧ Poll n t (shared c)
    = Returns (Some (take (Z.to_nat n) put_items), None)
        (State (heap (shared c))
               (set_items (queue (shared c))
                          (Some (drop (Z.to_nat n) put_items)))).
Proof.
  intros Hexec Hfin Hc Hn.
  pose proof (reachable_invariant sched c Hexec) as Hinv.
  assert (items (queue (shared c)) = Some put_items
          ∧ lock (queue (shared c)) = false
          ∧ disposed (queue (shared c)) = false) as (Hits & Hl & Hd).
  { destruct c as [[h [w its' l d]] pc pq lg].
    destruct Hinv as (r & k & Hlk & Hd & Hshape). simpl in *. subst pc.
    shape_cases Hshape; try done;
      by rewrite (RaceSpec.put_buffer_Some put_items s0). }
  split; [done|].
  rewrite QueueSpec.Poll_buffered; try done.
  - by rewrite Hits.
  - rewrite Hits. simpl. done.
Qed.

End Race.

(** The producer hands over, the consumer takes its item and answers, the
    producer finishes. *)
Lemma Get_loses_no_wakeup_witness :
  let sched := [ProducerStep; ProducerStep; ProducerStep; ProducerStep;
                ProducerStep; ProducerStep; ConsumerStep; ConsumerStep;
                ConsumerStep; ConsumerStep; ProducerStep; ProducerStep;
                ProducerStep; ProducerStep] in
  let c := Config (State {[0%nat := Sema None 0]}
                     {| waiters := Some []; items := Some [20];
                        lock := false; disposed := false |})
                  (PReturned (Some [10]) None) (QReturned None)
                  [Sent Producer] in
  exec 0%nat 1 0 [10; 20] sched (start 0%nat new_queue) = Some c
  ∧ cons c = PReturned (Some (take (Z.to_nat 1) [10; 20])) None.
Proof.
  intros sched c.
  assert (exec 0%nat 1 0 [10; 20] sched (start 0%nat new_queue) = Some c)
    as Hexec by (vm_compute; reflexivity).
  split; [exact Hexec|].
  apply (Get_loses_no_wakeup 0%nat 1 0 [10; 20] new_queue
           eq_refl eq_refl eq_refl eq_refl ltac:(discriminate)
           ltac:(split; by vm_compute) sched c).
  - lia.
  - exact Hexec.
  - intros a. destruct a; reflexivity.
Defined.

Lemma items_survive_timeout_witness :
  let sched := [ProducerStep; ProducerStep; ProducerStep; ProducerStep;
                ProducerStep; ProducerStep; Timer; ConsumerStep; ConsumerStep;
                ProducerStep; ProducerStep; ProducerStep; ProducerStep] in
  let c := Config (State {[0%nat := Sema (Some true) 0]}
                     {| waiters := Some []; items := Some [10; 20];
                        lock := false; disposed := false |})
                  (PReturned None (Some ErrTimeout)) (QReturned None)
                  [Refused Consumer; Sent Producer] in
  exec 0%nat 1 1 [10; 20] sched (start 0%nat new_queue) = Some c
  ∧ Get 1 (shared c)
    = Returns (Some [10], None)
        (State {[0%nat := Sema (Some true) 0]}
           {| waiters := Some []; items := Some [20]; lock := false;
              disposed := false |}).
Proof.
  intros sched c.
  assert (exec 0%nat 1 1 [10; 20] sched (start 0%nat new_queue) = Some c)
    as Hexec by (vm_compute; reflexivity).
  split; [exact Hexec|].
  exact (proj2 (items_survive_timeout 0%nat 1 1 [10; 20] new_queue
                  eq_refl eq_refl eq_refl eq_refl ltac:(discriminate)
                  ltac:(split; by vm_compute)
                  sched c None 1 0 Hexec eq_refl eq_refl
                  ltac:(split; by vm_compute))).
Defined.


End RaceExtra.

(** * Properties of package set *)

Module SetSpec.

Import SetPkg.

Section Sets.

Context `{Countable T}.
Variable zero : T.

Implicit Types (s : state T) (m : gset T) (xs order : list T).

(** ** The loops *)

Lemma elem_of_add_all xs m (y : T) :
  y ∈ add_all xs m ↔ y ∈ xs ∨ y ∈ m.
Proof.
  revert m. induction xs as [|x xs IH]; intros m; simpl.
  - split; [by right|]. intros [Hin|Hin]; [inversion Hin|done].
  - rewrite IH, elem_of_cons, elem_of_union, elem_of_singleton. tauto.
Qed.

Lemma elem_of_delete_all xs m (y : T) :
  y ∈ delete_all xs m ↔ y ∈ m ∧ y ∉ xs.
Proof.
  revert m. induction xs as [|x xs IH]; intros m; simpl.
  - split; [|by intros []]. intros Hin. split; [done|]. intros Hn.
    inversion Hn.
  - rewrite IH, not_elem_of_cons, elem_of_difference, elem_of_singleton.
    tauto.
Qed.

Lemma All_loop_true xs m :
  All_loop xs m = true ↔ ∀ x, x ∈ xs → x ∈ m.
Proof.
  induction xs as [|x xs IH]; simpl.
  - split; [|done]. intros _ x Hx. inversion Hx.
  - destruct (bool_decide_reflect (x ∈ m)) as [Hin|Hout].
    + rewrite IH. split.
      * intros Hall y Hy. apply elem_of_cons in Hy as [->|Hy]; auto.
      * intros Hall y Hy. apply Hall. by right.
    + split; [done|]. intros Hall. exfalso. apply Hout, Hall. by left.
Qed.

Lemma zero_loop_spec (n i : nat) (l : list T) :
  (i + n ≤ length l)%nat →
  zero_loop zero n i l = take i l ++ replicate n zero ++ drop (i + n) l.
Proof.
  revert i l. induction n as [|n IH]; intros i l Hlen; simpl.
  - by rewrite Nat.add_0_r, take_drop.
  - rewrite IH by (rewrite length_insert; lia).
    rewrite drop_insert_lt by lia.
    replace (S i + n)%nat with (i + S n)%nat by lia.
    rewrite (take_S_r _ i zero) by (apply list_lookup_insert_eq; lia).
    rewrite take_insert_ge by lia.
    by rewrite <- app_assoc.
Qed.

Lemma add_all_list_to_set xs m :
  add_all xs m = list_to_set xs ∪ m.
Proof.
  apply set_eq. intros y.
  rewrite elem_of_add_all, elem_of_union, elem_of_list_to_set. tauto.
Qed.

Lemma delete_all_elements order m :
  order ≡ₚ elements m → delete_all order m = ∅.
Proof.
  intros Hp. apply set_eq. intros y.
  rewrite elem_of_delete_all, Hp, elem_of_elements, elem_of_empty. tauto.
Qed.

Lemma can_Lock_RLock (l : rwmutex) :
  can_Lock l = true → can_RLock l = true.
Proof.
  unfold can_Lock, can_RLock. by intros [? _]%andb_true_iff.
Qed.

Lemma can_Lock_writer (l : rwmutex) :
  can_Lock l = true → writer l = false.
Proof.
  unfold can_Lock. intros [Hw _]%andb_true_iff. by destruct (writer l).
Qed.

Lemma Exists_inv s (y : T) (b : bool) s' :
  Exists y s = Returns b s' →
  can_RLock (lock (self s)) = true ∧ b = bool_decide (y ∈ items (self s)).
Proof.
  unfold Exists. destruct (can_RLock _); [|done]. by intros [= <- _].
Qed.

Lemma Len_inv s (n : Z) s' :
  Len s = Returns n s' →
  can_RLock (lock (self s)) = true ∧ n = Z.of_nat (size (items (self s))).
Proof.
  unfold Len. destruct (can_RLock _); [|done]. by intros [= <- _].
Qed.

Lemma emptied s :
  can_Lock (lock (self s)) = true →
  items (self s) = ∅ →
  Len s = Returns 0 s ∧ ∀ y : T, Exists y s = Returns false s.
Proof.
  intros Hl%can_Lock_RLock He. unfold Len, Exists. rewrite Hl, He. split.
  - by rewrite size_empty.
  - intros y. by rewrite bool_decide_eq_false_2 by apply not_elem_of_empty.
Qed.

(** What [Flatten] does when the set keeps no slice. *)
Lemma Flatten_fresh s order :
  can_Lock (lock (self s)) = true →
  flattened (self s) = None →
  ∃ hd s1,
    Flatten order s = Returns (Some hd) s1
    ∧ read s1 (Some hd) = order
    ∧ (array hd ∉ dom (arrays s))
    ∧ items (self s1) = items (self s)
    ∧ lock (self s1) = lock (self s)
    ∧ flattened (self s1) = Some hd
    ∧ (∀ old, array old ∈ dom (arrays s) →
              read s1 (Some old) = read s (Some old)).
Proof.
  intros Hl Hf. unfold Flatten. rewrite Hl, Hf.
  eexists _, _. split; [done|]. simpl.
  split; [|split; [|split; [|split; [|split]]]]; try done.
  - unfold read. simpl. rewrite lookup_insert_eq. simpl.
    by rewrite firstn_all.
  - apply is_fresh.
  - intros old Hin. rewrite lookup_insert_ne; [done|].
    intros Heq. rewrite <- Heq in Hin. by apply is_fresh in Hin.
Qed.

(** What [Flatten] does when the set keeps a slice. *)
Lemma Flatten_cached s order (hd : header) :
  can_Lock (lock (self s)) = true →
  flattened (self s) = Some hd →
  Flatten order s = Returns (Some hd) s.
Proof.
  intros Hl Hf. unfold Flatten. by rewrite Hl, Hf.
Qed.

(** [flattened_ok] holds of a new set and every method keeps it. *)
Lemma flattened_ok_New xs : flattened_ok (New xs).
Proof. done. Qed.

Lemma flattened_ok_kept s :
  flattened_ok s →
  (∀ xs u s1, Add xs s = Returns u s1 → flattened_ok s1)
  ∧ (∀ xs u s1, Remove xs s = Returns u s1 → flattened_ok s1)
  ∧ (∀ order sl s1, Flatten order s = Returns sl s1 → flattened_ok s1)
  ∧ (∀ u s1, Clear s = Returns u s1 → flattened_ok s1)
  ∧ (∀ order u s1, Dispose zero order s = Returns u s1 → flattened_ok s1).
Proof.
  intros Hok. unfold Add, Remove, Flatten, Clear, Dispose, flattened_ok in *.
  destruct (can_Lock _); [|by repeat split].
  split; [by intros; simplify_eq/=|]. split; [by intros; simplify_eq/=|].
  destruct (flattened (self s)) as [hd|] eqn:Hf.
  - destruct Hok as (l & Hlook & Hlen).
    split; [|split].
    + intros; simplify_eq/=. rewrite Hf. by exists l.
    + intros; simplify_eq/=. by exists l.
    + intros; simplify_eq/=. rewrite lookup_alter_eq, Hlook. simpl.
      eexists. split; [done|]. lia.
  - split; [|split].
    + intros; simplify_eq/=. rewrite lookup_insert_eq. by eexists.
    + by intros; simplify_eq/=.
    + by intros; simplify_eq/=.
Qed.

(** ** Membership *)

(** X13: after [Add(xs...)] an item is in the set exactly when
    it is one of [xs] or was in the set before. *)
Theorem Add_then_Exists s xs (y : T) (b : bool) :
  can_Lock (lock (self s)) = true →
  Exists y s = Returns b s →
  ∃ s1, Add xs s = Returns tt s1
        ∧ Exists y s1 = Returns (bool_decide (y ∈ xs) || b) s1.
Proof.
  intros Hl [Hr ->]%Exists_inv. unfold Add. rewrite Hl.
  eexists. split; [done|]. unfold Exists. simpl. rewrite Hr. f_equal.
  rewrite <- bool_decide_or. apply bool_decide_ext, elem_of_add_all.
Qed.

(** X14: after [Remove(xs...)] an item is in the set exactly
    when it was in the set before and is none of [xs]. *)
Theorem Remove_then_Exists s xs (y : T) (b : bool) :
  can_Lock (lock (self s)) = true →
  Exists y s = Returns b s →
  ∃ s1, Remove xs s = Returns tt s1
        ∧ Exists y s1 = Returns (b && negb (bool_decide (y ∈ xs))) s1.
Proof.
  intros Hl [Hr ->]%Exists_inv. unfold Remove. rewrite Hl.
  eexists. split; [done|]. unfold Exists. simpl. rewrite Hr. f_equal.
  rewrite <- bool_decide_not, <- bool_decide_and.
  apply bool_decide_ext, elem_of_delete_all.
Qed.

(** X15: a set made by [New(xs...)] holds exactly the
    items [xs], [All(xs...)] is true of it, and [Len] counts each item once
    however often it was given. *)
Theorem New_holds_its_items xs :
  (∀ y : T, Exists y (New xs) = Returns (bool_decide (y ∈ xs)) (New xs))
  ∧ All xs (New xs) = Returns true (New xs)
  ∧ Len (New xs)
    = Returns (Z.of_nat (length (remove_dups xs))) (New xs).
Proof.
  split; [|split].
  - intros y. unfold Exists, New. simpl. do 2 f_equal.
    apply bool_decide_ext. rewrite elem_of_add_all, elem_of_empty. tauto.
  - unfold All, New. simpl. f_equal. apply All_loop_true.
    intros x Hx. apply elem_of_add_all. by left.
  - unfold Len, New. simpl. do 3 f_equal.
    rewrite add_all_list_to_set, union_empty_r_L.
    rewrite <- (size_list_to_set (C := gset T) (remove_dups xs))
      by apply NoDup_remove_dups.
    f_equal. apply set_eq. intros y.
    by rewrite !elem_of_list_to_set, elem_of_remove_dups.
Qed.

(** X16: [All(xs...)] is true exactly when [Exists] is true of
    every one of [xs]; so [All()] of no items is true. *)
Theorem All_iff_every_Exists s xs :
  can_RLock (lock (self s)) = true →
  ∃ b, All xs s = Returns b s
       ∧ (b = true ↔ ∀ x : T, x ∈ xs → Exists x s = Returns true s)
       ∧ (xs = [] → b = true).
Proof.
  intros Hr. unfold All, Exists. rewrite Hr.
  eexists. split; [done|]. split.
  - rewrite All_loop_true. split.
    + intros Hall x Hx. by rewrite bool_decide_eq_true_2 by auto.
    + intros Hall x Hx. specialize (Hall x Hx).
      injection Hall as Hb. by apply bool_decide_eq_true in Hb.
  - by intros ->.
Qed.

(** X17: adding one item raises [Len] by one unless the
    item was there, and removing one lowers it by one if it was there. *)
Theorem Len_counts_members s (x : T) (b : bool) (n : Z) :
  can_Lock (lock (self s)) = true →
  Exists x s = Returns b s →
  Len s = Returns n s →
  ∃ s1 s2,
    Add [x] s = Returns tt s1
    ∧ Len s1 = Returns (if b then n else n + 1) s1
    ∧ Remove [x] s = Returns tt s2
    ∧ Len s2 = Returns (if b then n - 1 else n) s2.
Proof.
  intros Hl [Hr ->]%Exists_inv [_ ->]%Len_inv.
  unfold Add, Remove. rewrite Hl.
  eexists _, _. split; [done|]. split; [|split; [done|]].
  - unfold Len. simpl. rewrite Hr. f_equal.
    destruct (bool_decide_reflect (x ∈ items (self s))) as [Hin|Hout].
    + do 2 f_equal. apply set_eq. intros y.
      rewrite elem_of_union, elem_of_singleton. split; [|tauto].
      by intros [->|?].
    + rewrite size_union by (apply disjoint_singleton_l; exact Hout).
      rewrite size_singleton. lia.
  - unfold Len. simpl. rewrite Hr. f_equal.
    destruct (bool_decide_reflect (x ∈ items (self s))) as [Hin|Hout].
    + rewrite size_difference by (by apply singleton_subseteq_l).
      rewrite size_singleton.
      assert (size (items (self s)) ≠ 0%nat).
      { intros Hz. apply size_empty_inv in Hz.
        apply Hz in Hin. by apply elem_of_empty in Hin. }
      lia.
    + do 2 f_equal. apply set_eq. intros y.
      rewrite elem_of_difference, elem_of_singleton. split; [tauto|].
      intros Hy. split; [done|]. by intros ->.
Qed.

(** ** Flatten and its cache *)

(** X18: on a set that keeps no slice, [Flatten] returns the items
    of the set, each of them once, as many as [Len] says; the next [Flatten]
    returns the very same slice and changes nothing, whatever order the map
    would be walked in. *)
Theorem Flatten_lists_members s order :
  can_Lock (lock (self s)) = true →
  flattened (self s) = None →
  order ≡ₚ elements (items (self s)) →
  ∃ hd s1,
    Flatten order s = Returns (Some hd) s1
    ∧ read s1 (Some hd) = order
    ∧ NoDup (read s1 (Some hd))
    ∧ (∀ y, y ∈ read s1 (Some hd) ↔ Exists y s = Returns true s)
    ∧ Len s1 = Returns (Z.of_nat (length (read s1 (Some hd)))) s1
    ∧ (∀ order', Flatten order' s1 = Returns (Some hd) s1).
Proof.
  intros Hl Hf Hp.
  destruct (Flatten_fresh s order Hl Hf)
    as (hd & s1 & HF & Hread & _ & Hit & Hlk & Hfl & _).
  exists hd, s1. split; [done|]. split; [done|]. rewrite Hread.
  split; [|split; [|split]].
  - rewrite Hp. apply NoDup_elements.
  - intros y. rewrite Hp, elem_of_elements. unfold Exists.
    rewrite (can_Lock_RLock _ Hl). split.
    + intros Hin. by rewrite bool_decide_eq_true_2.
    + intros [= Hb]. by apply bool_decide_eq_true in Hb.
  - unfold Len. rewrite Hlk, (can_Lock_RLock _ Hl), Hit, Hp. done.
  - intros order'. apply Flatten_cached; [by rewrite Hlk|done].
Qed.

(** X19: [Add] and [Remove] drop the slice the set
    keeps, so the [Flatten] after them lists the items as they are now; the
    slice is a new one, and a slice handed out before still reads what it
    read. *)
Theorem Add_Remove_drop_cache s xs :
  can_Lock (lock (self s)) = true →
  ∃ s1 s2,
    Add xs s = Returns tt s1
    ∧ Remove xs s = Returns tt s2
    ∧ (∀ order, order ≡ₚ elements (items (self s1)) →
         ∃ hd s1',
           Flatten order s1 = Returns (Some hd) s1'
           ∧ read s1' (Some hd) = order
           ∧ (∀ y, y ∈ order ↔ y ∈ xs ∨ y ∈ items (self s))
           ∧ (∀ old, array old ∈ dom (arrays s) →
                     read s1' (Some old) = read s (Some old)))
    ∧ (∀ order, order ≡ₚ elements (items (self s2)) →
         ∃ hd s2',
           Flatten order s2 = Returns (Some hd) s2'
           ∧ read s2' (Some hd) = order
           ∧ (∀ y, y ∈ order ↔ y ∈ items (self s) ∧ y ∉ xs)
           ∧ (∀ old, array old ∈ dom (arrays s) →
                     read s2' (Some old) = read s (Some old))).
Proof.
  intros Hl. unfold Add, Remove. rewrite Hl.
  eexists _, _. split; [done|]. split; [done|]. split.
  - intros order Hp.
    edestruct (Flatten_fresh) as (hd & s1' & HF & Hread & _ & _ & _ & _ & Ho);
      [| |exists hd, s1'; split; [exact HF|]]; [done|done|].
    split; [done|]. split; [|exact Ho].
    intros y. rewrite Hp, elem_of_elements. simpl. apply elem_of_add_all.
  - intros order Hp.
    edestruct (Flatten_fresh) as (hd & s2' & HF & Hread & _ & _ & _ & _ & Ho);
      [| |exists hd, s2'; split; [exact HF|]]; [done|done|].
    split; [done|]. split; [|exact Ho].
    intros y. rewrite Hp, elem_of_elements. simpl. apply elem_of_delete_all.
Qed.

(** X20: [Clear] empties the set but keeps the slice of an
    earlier [Flatten]: afterwards [Len] is 0 and no item exists, yet
    [Flatten] still returns the old slice with the old items. *)
Theorem Clear_keeps_flattened s order :
  can_Lock (lock (self s)) = true →
  flattened (self s) = None →
  order ≡ₚ elements (items (self s)) →
  ∃ hd s1 s2,
    Flatten order s = Returns (Some hd) s1
    ∧ Clear s1 = Returns tt s2
    ∧ Len s2 = Returns 0 s2
    ∧ (∀ y, Exists y s2 = Returns false s2)
    ∧ (∀ order', Flatten order' s2 = Returns (Some hd) s2)
    ∧ read s2 (Some hd) = order.
Proof.
  intros Hl Hf Hp.
  destruct (Flatten_fresh s order Hl Hf)
    as (hd & s1 & HF & Hread & _ & Hit & Hlk & Hfl & _).
  exists hd, s1. unfold Clear. rewrite Hlk, Hl.
  eexists. split; [done|]. split; [done|].
  split; [by apply emptied|]. split; [by apply emptied|]. split.
  - intros order'. by apply Flatten_cached.
  - exact Hread.
Qed.

(** On a set that keeps no slice, [Clear] followed by [Flatten] gives an
    empty slice. *)
Lemma Clear_then_Flatten s order' :
  can_Lock (lock (self s)) = true →
  flattened (self s) = None →
  ∃ s1, Clear s = Returns tt s1
        ∧ (order' ≡ₚ elements (items (self s1)) →
           ∃ hd s2, Flatten order' s1 = Returns (Some hd) s2
                    ∧ read s2 (Some hd) = []).
Proof.
  intros Hl Hf. unfold Clear. rewrite Hl. eexists. split; [done|].
  simpl. rewrite elements_empty. intros ->%Permutation_nil_r.
  edestruct Flatten_fresh as (hd & s2 & HF & Hread & _);
    [| |exists hd, s2; split; [exact HF|exact Hread]]; simpl; done.
Qed.

(** ** Dispose *)

(** X21: [Dispose] empties the set; a slice that [Flatten] handed
    out before reads zero values afterwards, the array being shared; and the
    [Flatten] after it gives an empty slice. *)
Theorem Dispose_zeroes_flattened s order :
  can_Lock (lock (self s)) = true →
  flattened_ok s →
  order ≡ₚ elements (items (self s)) →
  ∃ s1,
    Dispose zero order s = Returns tt s1
    ∧ Len s1 = Returns 0 s1
    ∧ (∀ y, Exists y s1 = Returns false s1)
    ∧ (∀ hd, flattened (self s) = Some hd →
             read s1 (Some hd) = replicate (hlen hd) zero)
    ∧ (∀ order', order' ≡ₚ elements (items (self s1)) →
         ∃ sl s2, Flatten order' s1 = Returns sl s2 ∧ read s2 sl = []).
Proof.
  intros Hl Hok Hp. unfold Dispose. rewrite Hl.
  rewrite (delete_all_elements _ _ Hp).
  unfold flattened_ok in Hok.
  destruct (flattened (self s)) as [hd|] eqn:Hf.
  - destruct Hok as (l & Hlook & Hlen).
    eexists. split; [done|].
    split; [by apply emptied|]. split; [by apply emptied|]. split.
    + intros hd' [= <-]. unfold read. simpl.
      rewrite lookup_alter_eq, Hlook. simpl.
      rewrite zero_loop_spec by (simpl; lia). simpl.
      rewrite take_app_le by (rewrite length_replicate; lia).
      rewrite take_ge by (rewrite length_replicate; lia). done.
    + intros order' _. eexists _, _.
      split; [by apply Flatten_cached|]. done.
  - eexists. split; [done|].
    split; [by apply emptied|]. split; [by apply emptied|]. split.
    + done.
    + simpl. rewrite elements_empty. intros order' ->%Permutation_nil_r.
      edestruct Flatten_fresh as (hd & s2 & HF & Hread & _);
        [| |exists (Some hd), s2; split; [exact HF|exact Hread]]; simpl; done.
Qed.

End Sets.

(** ** The theorems at sets of integers *)

Lemma Add_then_Exists_witness :
  ∃ s1 : state Z,
    Add [3] (New [1; 2]) = Returns tt s1
    ∧ Exists 3 s1
      = Returns (bool_decide (3 ∈ [3])
                 || bool_decide (3 ∈ items (self (New [1; 2])))) s1.
Proof.
  apply (Add_then_Exists (New [1; 2]) [3] 3); reflexivity.
Defined.

Lemma Remove_then_Exists_witness :
  ∃ s1 : state Z,
    Remove [2] (New [1; 2]) = Returns tt s1
    ∧ Exists 2 s1
      = Returns (bool_decide (2 ∈ items (self (New [1; 2])))
                 && negb (bool_decide (2 ∈ [2]))) s1.
Proof.
  apply (Remove_then_Exists (New [1; 2]) [2] 2); reflexivity.
Defined.

Lemma All_iff_every_Exists_witness :
  ∃ b, All [1; 2] (New [1; 2; 3] : state Z) = Returns b (New [1; 2; 3])
       ∧ (b = true
          ↔ ∀ x, x ∈ [1; 2]
                 → Exists x (New [1; 2; 3]) = Returns true (New [1; 2; 3]))
       ∧ ([1; 2] = [] → b = true).
Proof.
  apply (All_iff_every_Exists (New [1; 2; 3]) [1; 2]). reflexivity.
Defined.

Lemma Len_counts_members_witness :
  ∃ s1 s2 : state Z,
    Add [5] (New [1; 2]) = Returns tt s1
    ∧ Len s1
      = Returns (if bool_decide (5 ∈ items (self (New [1; 2])))
                 then Z.of_nat (size (items (self (New [1; 2]))))
                 else Z.of_nat (size (items (self (New [1; 2])))) + 1) s1
    ∧ Remove [5] (New [1; 2]) = Returns tt s2
    ∧ Len s2
      = Returns (if bool_decide (5 ∈ items (self (New [1; 2])))
                 then Z.of_nat (size (items (self (New [1; 2])))) - 1
                 else Z.of_nat (size (items (self (New [1; 2]))))) s2.
Proof.
  apply (Len_counts_members (New [1; 2]) 5); reflexivity.
Defined.

Lemma Flatten_lists_members_witness :
  ∃ hd (s1 : state Z),
    Flatten (elements (items (self (New [1; 2; 2])))) (New [1; 2; 2])
    = Returns (Some hd) s1
    ∧ read s1 (Some hd) = elements (items (self (New [1; 2; 2])))
    ∧ ∀ order', Flatten order' s1 = Returns (Some hd) s1.
Proof.
  destruct (Flatten_lists_members (New [1; 2; 2] : state Z)
              (elements (items (self (New [1; 2; 2])))))
    as (hd & s1 & HF & Hread & _ & _ & _ & Hagain); [done..|].
  by exists hd, s1.
Defined.

Lemma Add_Remove_drop_cache_witness :
  ∃ (s1 : state Z) hd s1',
    Add [3] (New [1; 2]) = Returns tt s1
    ∧ Flatten (elements (items (self s1))) s1 = Returns (Some hd) s1'
    ∧ read s1' (Some hd) = elements (items (self s1)).
Proof.
  destruct (Add_Remove_drop_cache (New [1; 2] : state Z) [3])
    as (s1 & s2 & HA & HR & HFa & _); [done|].
  destruct (HFa (elements (items (self s1)))) as (hd & s1' & HF & Hread & _);
    [done|].
  by exists s1, hd, s1'.
Defined.

Lemma Clear_keeps_flattened_witness :
  ∃ hd (s1 s2 : state Z),
    Flatten (elements (items (self (New [1; 2])))) (New [1; 2])
    = Returns (Some hd) s1
    ∧ Clear s1 = Returns tt s2
    ∧ Len s2 = Returns 0 s2
    ∧ (∀ order', Flatten order' s2 = Returns (Some hd) s2)
    ∧ read s2 (Some hd) = elements (items (self (New [1; 2]))).
Proof.
  destruct (Clear_keeps_flattened (New [1; 2] : state Z)
              (elements (items (self (New [1; 2])))))
    as (hd & s1 & s2 & HF & HC & HL & _ & Hagain & Hread); [done..|].
  by exists hd, s1, s2.
Defined.

Lemma Dispose_zeroes_flattened_witness :
  ∃ s1 : state Z,
    Dispose 0 (elements ({[1; 2]} : gset Z))
      (State {[0%nat := [1; 2]]}
             (mkSet {[1; 2]} unlocked (Some (Header 0%nat 2%nat))))
    = Returns tt s1
    ∧ Len s1 = Returns 0 s1
    ∧ read s1 (Some (Header 0%nat 2%nat)) = [0; 0].
Proof.
  destruct (Dispose_zeroes_flattened 0
              (State {[0%nat := [1; 2]]}
                     (mkSet {[1; 2]} unlocked (Some (Header 0%nat 2%nat))))
              (elements ({[1; 2]} : gset Z)))
    as (s1 & HD & HL & _ & Hz & _).
  - reflexivity.
  - exists [1; 2]. split; [apply lookup_singleton_eq|simpl; lia].
  - reflexivity.
  - exists s1. split; [exact HD|]. split; [exact HL|]. by apply Hz.
Defined.

End SetSpec.
